(** * RouteTransition: the router-view transition pipeline of src/transition.js

    A shallow embedding of [RouteTransition] ([abort], [redirect], [start],
    [runQueue], [callHook]) together with a small model
    of the JavaScript host that the file relies on: values with truthiness,
    exceptions as an explicit [thrown] component, closures as functions and
    pending hook invocations that the event loop resumes later. *)

From Stdlib Require Import ZArith String Lia.
From Stdlib Require Import DecimalString.
From stdpp Require Import base list.
From Equations Require Import Equations.
From Equations.Prop Require Import Logic.

Local Open Scope string_scope.
Local Open Scope list_scope.

Set Warnings "-register-all".

(** ** JavaScript values *)

(** The values a hook can return, throw, pass to [next] or settle a thenable
    with.  Numbers are integers; [VError] is any instance of [Error];
    [VThenable] is any object with a callable [then]. *)
Inductive value : Type :=
| VUndefined
| VNull
| VBool (b : bool)
| VNum (n : Z)
| VStr (s : string)
| VError (message : string)
| VThenable
| VObject.

(** [x ? _ : _] and [x && _] *)
Definition truthy (v : value) : bool :=
  match v with
  | VUndefined | VNull => false
  | VBool b => b
  | VNum n => negb (n =? 0)%Z
  | VStr s => negb (String.eqb s "")
  | VError _ | VThenable | VObject => true
  end.

(** [typeof res === 'boolean'] *)
Definition isBoolean (v : value) : bool :=
  match v with VBool _ => true | _ => false end.

(** [util.isPromise]: an object with a [then] method. *)
Definition isPromise (v : value) : bool :=
  match v with VThenable => true | _ => false end.

(** [err instanceof Error] *)
Definition instanceofError (v : value) : bool :=
  match v with VError _ => true | _ => false end.

(** String conversion used by [new Error(err)] for its message. *)
Definition toString (v : value) : string :=
  match v with
  | VUndefined => "undefined"
  | VNull => "null"
  | VBool true => "true"
  | VBool false => "false"
  | VNum n => NilZero.string_of_int (Z.to_int n)
  | VStr s => s
  | VError m => String.append "Error: " m
  | VThenable | VObject => "[object Object]"
  end.

(** [new Error(err)]: an absent message leaves the message empty. *)
Definition newError (v : value) : value :=
  match v with
  | VUndefined => VError ""
  | _ => VError (toString v)
  end.

(** ** Hooks

    A user hook receives the exposed object and may call [next], [abort] and
    [redirect] on it while it runs, then throws or returns; after it has
    returned it may still call them (from a timer, say) and a thenable it
    returned may settle. *)

Inductive call : Type :=
| CallNext (data : value)
| CallAbort
| CallRedirect (p : string).

Inductive completion : Type :=
| Throws (err : value)
| Returns (res : value).

Inductive async : Type :=
| Later (c : call)          (* a call on the exposed object after the hook returned *)
| Resolves (v : value)      (* the returned thenable is fulfilled with v *)
| Rejects (reason : value). (* the returned thenable is rejected *)

Record hook := {
  body : list call;
  finish : completion;
  after : list async
}.

(** ** Routes, events and the mutable world *)

Record Route := {
  path : string;
  params : list (string * string);
  query : list (string * string)
}.

(** ** Sample routes, predicates and hooks *)

(** Views and handlers named by strings; [mapParams] leaves the path alone. *)
Definition ex_to : Route :=
  {| path := "/user/7"; params := [("id", "7")]; query := [] |}.
Definition ex_from : Route :=
  {| path := "/home"; params := []; query := [] |}.
Definition ex_mapParams (p : string) (_ _ : list (string * string)) : string := p.

(** A [canReuse] that reuses a view for the handler of the same name and
    rejects an absent handler, and one that accepts everything. *)
Definition sameName (view : string) (handler : option string) : bool :=
  match handler with
  | Some h => String.eqb view h
  | None => false
  end.
Definition anyPair (view : string) (handler : option string) : bool := true.

Definition returnsTrue : hook :=
  {| body := []; finish := Returns (VBool true); after := [] |}.
Definition returnsFalse : hook :=
  {| body := []; finish := Returns (VBool false); after := [] |}.
Definition callsNext : hook :=
  {| body := [CallNext VUndefined]; finish := Returns VUndefined; after := [] |}.
Definition nextThenFalse : hook :=
  {| body := [CallNext VUndefined]; finish := Returns (VBool false); after := [] |}.
Definition throwsBoom : hook :=
  {| body := []; finish := Throws (VStr "boom"); after := [] |}.
Definition throwsEmpty : hook :=
  {| body := []; finish := Throws (VStr ""); after := [] |}.


(** The [canActivate] hook of handler D advances by itself and then
    returns [false]; the one of handler E lets the transition through. *)
Definition advancesThenRefuses (handler : string) : hook :=
  if String.eqb handler "D" then nextThenFalse else returnsTrue.

(** * The transition *)

Section Transition.

(** Router-view directive instances and route handlers are opaque. *)
Context {View Handler : Type}.

(** Calls that leave the file, in the order they are made. *)
Inductive event : Type :=
| Replace (p : string)            (* router.replace(p) *)
| UpdateRoute                     (* router._updateRoute(transition.to) *)
| Warn (msg : string)             (* util.warn(msg) *)
| Cleanup                         (* the cleanup argument of callHook ran *)
| CanDeactivate (v : View)        (* pipeline.canDeactivate(v, ...) *)
| CanActivate (h : Handler)       (* pipeline.canActivate(h, ...) *)
| Deactivate (v : View)           (* pipeline.deactivate(v, ...) *)
| Reuse (v : View)                (* pipeline.reuse(v, transition) *)
| Activate (v : View) (depth : nat) (* pipeline.activate(v, transition, depth, cb) *)
| Done                            (* the cb given to start was called *)
| Uncaught (e : value).           (* an exception reached the event loop *)

(** The mutable state the file reads and writes: [transition.aborted],
    [router._suppress], and the trace of outgoing calls. *)
Record World := {
  aborted : bool;
  suppress : bool;
  trace : list event
}.

Definition emit (e : event) (w : World) : World :=
  {| aborted := aborted w; suppress := suppress w; trace := trace w ++ [e] |}.

Definition set_aborted (w : World) : World :=
  {| aborted := true; suppress := suppress w; trace := trace w |}.

(** The world of a transition just constructed: [this.aborted = false]. *)
Definition fresh (suppressed : bool) : World :=
  {| aborted := false; suppress := suppressed; trace := [] |}.

(** [util.warn] *)
Definition warn (msg : string) (w : World) : World := emit (Warn msg) w.

(** The transition's two locations and [util.mapParams]. *)
Variables (to from : Route).
Variable mapParams : string -> list (string * string) -> list (string * string) -> string.

(** ** Transition control surface *)

(** [RouteTransition.prototype.abort] *)
Definition abort (w : World) : World :=
  if negb (aborted w)
  then emit (Replace (if String.eqb (path from) "" then "/" else path from))
            (set_aborted w)
  else w.

(** [RouteTransition.prototype.redirect] *)
Definition redirect (p : string) (w : World) : World :=
  if negb (aborted w)
  then emit (Replace (mapParams p (params to) (query to))) (set_aborted w)
  else w.

(** ** Phase 1 of [start]: the reusability loop *)

(** [pipeline.canReuse(view, handler, transition)]; the handler argument is
    [aq[i]], which is [undefined] when [i] is past the end of [aq]. *)
Variable canReuse : View -> option Handler -> bool.

Section Reusability.

Variables (rdaq : list View) (aq : list Handler).

(** [for (var i = 0; i < rdaq.length; i++) if (!canReuse(rdaq[i], aq[i])) break].
    Returns the final [i] and the argument pairs [canReuse] was applied to. *)
Equations? reuseLoop (i : nat) (calls : list (View * option Handler))
  : nat * list (View * option Handler) by wf (length rdaq - i) lt :=
  reuseLoop i calls with inspect (rdaq !! i) => {
    | exist _ None _ := (i, calls);
    | exist _ (Some v) Hv with canReuse v (aq !! i) => {
        | true := reuseLoop (S i) (calls ++ [(v, aq !! i)]);
        | false := (i, calls ++ [(v, aq !! i)]) } }.
Proof. apply lookup_lt_Some in Hv. lia. Qed.

End Reusability.

(** The queues after phase 1: [reuseQueue] (left [undefined] when [i = 0]),
    and the narrowed [daq] and [aq]. *)
Record Queues := {
  reuseQueue : option (list View);
  daq : list View;
  aq : list Handler
}.

(** Lines 98-113 of [start]. *)
Definition reusability (deactivateQueue : list View) (activateQueue : list Handler)
  : Queues * list (View * option Handler) :=
  let rdaq := reverse deactivateQueue in
  let '(i, calls) := reuseLoop rdaq activateQueue 0 [] in
  if (0 <? i)%nat
  then ({| reuseQueue := Some (take i rdaq);
           daq := reverse (drop i rdaq);
           aq := drop i activateQueue |}, calls)
  else ({| reuseQueue := None; daq := deactivateQueue; aq := activateQueue |}, calls).

(** ** Results of synchronous code and suspended hook invocations *)

(** The closure environment of one [callHook] invocation that outlives the
    call: [nextCalled], the arguments [cb], [expectBoolean], [cleanup],
    whether [res.then] registered handlers that have not fired yet, and what
    the hook will still do. *)
Record Invocation (R : Type) := {
  i_nextCalled : bool;
  i_cb : option (value -> World -> R);
  i_expectBoolean : bool;
  i_cleanup : bool;
  i_reaction : bool;
  i_script : list async
}.
Arguments i_nextCalled {R} _.
Arguments i_cb {R} _.
Arguments i_expectBoolean {R} _.
Arguments i_cleanup {R} _.
Arguments i_reaction {R} _.
Arguments i_script {R} _.

(** Running a piece of synchronous code yields the new world, the exception
    it threw (if any) and the hook invocations it left suspended. *)
Inductive Result : Type :=
| Res (w : World) (t : option value) (p : list (Invocation Result)).

Definition world (r : Result) : World := let 'Res w _ _ := r in w.
Definition thrown (r : Result) : option value := let 'Res _ t _ := r in t.
Definition pending (r : Result) : list (Invocation Result) := let 'Res _ _ p := r in p.

Definition Continuation := value -> World -> Result.

(** ** [callHook] and its closures *)

Section CallHook.

Variables (cb : option Continuation) (expectBoolean cleanup : bool).

(** [next]: threads the closure variable [nextCalled]. *)
Definition next (data : value) (nextCalled : bool) (w : World) : bool * Result :=
  if nextCalled
  then (true, Res (warn "transition.next() should be called only once." w) None [])
  else match cb with
       | None => (true, Res w None [])
       | Some k => if aborted w then (true, Res w None []) else (true, k data w)
       end.

(** The local [abort] closure: [cleanup && cleanup(); transition.abort()]. *)
Definition hookAbort (w : World) : World :=
  abort (if cleanup then emit Cleanup w else w).

(** [onError] *)
Definition onError (err : value) (nextCalled : bool) (w : World) : bool * Result :=
  let '(nc, r) := if cleanup then next VUndefined nextCalled w
                  else (nextCalled, Res (hookAbort w) None []) in
  match thrown r with
  | Some _ => (nc, r)
  | None =>
      if truthy err && negb (suppress (world r))
      then (nc, Res (warn "Uncaught error during transition: " (world r))
                    (Some (if instanceofError err then err else newError err))
                    (pending r))
      else (nc, r)
  end.

(** One call on the exposed object. *)
Definition exposed (c : call) (nextCalled : bool) (w : World) : bool * Result :=
  match c with
  | CallNext data => next data nextCalled w
  | CallAbort => (nextCalled, Res (hookAbort w) None [])
  | CallRedirect p => (nextCalled, Res (redirect p w) None [])
  end.

(** The calls a hook makes while it runs; an exception coming out of one of
    them ends the hook. *)
Fixpoint runBody (calls : list call) (nextCalled : bool) (w : World)
  (p : list (Invocation Result)) : bool * Result :=
  match calls with
  | [] => (nextCalled, Res w None p)
  | c :: rest =>
      let '(nc, r) := exposed c nextCalled w in
      match thrown r with
      | Some e => (nc, Res (world r) (Some e) (p ++ pending r))
      | None => runBody rest nc (world r) (p ++ pending r)
      end
  end.

(** What [callHook] leaves behind: the invocation with its closure state. *)
Definition suspend (h : hook) (nc registered : bool) : Invocation Result :=
  {| i_nextCalled := nc; i_cb := cb; i_expectBoolean := expectBoolean;
     i_cleanup := cleanup; i_reaction := registered; i_script := after h |}.

End CallHook.

(** [RouteTransition.prototype.callHook]; the receiver [context] is part of
    the hook's behaviour. *)
Definition callHook (h : hook) (cb : option Continuation)
  (expectBoolean cleanup : bool) (w : World) : Result :=
  let '(nc, r) := runBody cb cleanup (body h) false w [] in
  match (match thrown r with Some e => Throws e | None => finish h end) with
  | Throws err =>
      let '(nc', r') := onError cb cleanup err nc (world r) in
      Res (world r') (thrown r')
          (pending r ++ pending r' ++ [suspend cb expectBoolean cleanup h nc' false])
  | Returns res =>
      if expectBoolean then
        if isBoolean res then
          if truthy res
          then let '(nc', r') := next cb VUndefined nc (world r) in
               Res (world r') (thrown r')
                   (pending r ++ pending r'
                      ++ [suspend cb expectBoolean cleanup h nc' false])
          else Res (hookAbort cleanup (world r)) None
                   (pending r ++ [suspend cb expectBoolean cleanup h nc false])
        else if isPromise res
        then Res (world r) None
                 (pending r ++ [suspend cb expectBoolean cleanup h nc true])
        else Res (world r) None
                 (pending r ++ [suspend cb expectBoolean cleanup h nc false])
      else if isPromise res
      then Res (world r) None
               (pending r ++ [suspend cb expectBoolean cleanup h nc true])
      else Res (world r) None
               (pending r ++ [suspend cb expectBoolean cleanup h nc false])
  end.

(** ** The event loop resuming a suspended invocation *)

(** The next thing a suspended invocation does.  A settlement runs the
    handlers given to [res.then], once. *)
Definition resume (inv : Invocation Result) (w : World)
  : option (Invocation Result * Result) :=
  match i_script inv with
  | [] => None
  | ev :: rest =>
      let quiet := (i_nextCalled inv, Res w None []) in
      let '(nc, r) :=
        match ev with
        | Later c => exposed (i_cb inv) (i_cleanup inv) c (i_nextCalled inv) w
        | Resolves v =>
            if i_reaction inv then
              if i_expectBoolean inv then
                if truthy v then next (i_cb inv) VUndefined (i_nextCalled inv) w
                else (i_nextCalled inv, Res (hookAbort (i_cleanup inv) w) None [])
              else next (i_cb inv) v (i_nextCalled inv) w
            else quiet
        | Rejects e =>
            if i_reaction inv then onError (i_cb inv) (i_cleanup inv) e (i_nextCalled inv) w
            else quiet
        end in
      Some ({| i_nextCalled := nc; i_cb := i_cb inv; i_expectBoolean := i_expectBoolean inv;
               i_cleanup := i_cleanup inv;
               i_reaction := match ev with Later _ => i_reaction inv | _ => false end;
               i_script := rest |}, r)
  end.

(** An exception nobody caught is reported by the host. *)
Definition surface (r : Result) : World :=
  match thrown r with
  | Some e => emit (Uncaught e) (world r)
  | None => world r
  end.

Definition Config : Type := World * list (Invocation Result).

Definition boot (r : Result) : Config := (surface r, pending r).

(** The event loop lets the [k]-th suspended invocation take its next step. *)
Definition fire (k : nat) (c : Config) : Config :=
  match c.2 !! k with
  | None => c
  | Some inv =>
      match resume inv c.1 with
      | None => c
      | Some (inv', r) => (surface r, <[k := inv']> c.2 ++ pending r)
      end
  end.

Definition run (ks : list nat) (c : Config) : Config :=
  foldl (fun c k => fire k c) c ks.

(** ** [runQueue] *)

Section RunQueue.

Context {A : Type}.
Variables (queue : list A) (fn : A -> Continuation -> World -> Result)
          (done : World -> Result).

(** The inner [step]; [nextStep] ignores the payload [next] passes on. *)
Equations? step (index : nat) : World -> Result
  by wf (length queue - index) lt :=
  step index with inspect (queue !! index) => {
    | exist _ None _ := done;
    | exist _ (Some x) Hx := fn x (fun _ => step (index + 1)) }.
Proof. apply lookup_lt_Some in Hx. lia. Qed.

(** [RouteTransition.prototype.runQueue] *)
Definition runQueue : World -> Result := step 0.

End RunQueue.

(** ** The pipeline collaborators *)

(** The route hooks attached to views and handlers. *)
Variables (canDeactivateHook deactivateHook activateHook : View -> hook).
Variable canActivateHook : Handler -> hook.

(** Modelled from the spec: [pipeline.canDeactivate], [pipeline.canActivate]
    and [pipeline.deactivate] are not part of transition.js; they pass the
    item's hook and the queue continuation through [callHook], the two
    validation predicates with [expectBoolean] set, none with a cleanup. *)
Definition canDeactivate (view : View) (next : Continuation) (w : World) : Result :=
  callHook (canDeactivateHook view) (Some next) true false (emit (CanDeactivate view) w).

Definition canActivate (handler : Handler) (next : Continuation) (w : World) : Result :=
  callHook (canActivateHook handler) (Some next) true false (emit (CanActivate handler) w).

Definition deactivate (view : View) (next : Continuation) (w : World) : Result :=
  callHook (deactivateHook view) (Some next) false false (emit (Deactivate view) w).

(** Modelled from the spec: [pipeline.reuse] is a fire-and-forget
    notification. *)
Definition reuse (view : View) (w : World) : World := emit (Reuse view) w.

(** Modelled from the spec: [pipeline.activate] runs the activation hook
    after the commit point, so with a cleanup, and hands it [cb]. *)
Definition activate (view : View) (depth : nat) (cb : World -> Result) (w : World)
  : Result :=
  callHook (activateHook view) (Some (fun _ => cb)) false true
           (emit (Activate view depth) w).

(** ** [start] *)

(** The innermost closure [activatePhase] of [start]. *)
Definition activatePhase (q : Queues) (cb : World -> Result) (w : World) : Result :=
  let w1 := emit UpdateRoute w in
  let w2 := match reuseQueue q with
            | Some rq => foldl (fun w view => reuse view w) w1 rq
            | None => w1
            end in
  match last (daq q) with
  | Some view =>
      let depth := match reuseQueue q with Some rq => length rq | None => 0 end in
      activate view depth cb w2
  | None => cb w2
  end.

(** Phases 2 and 3 of [start] on the queues phase 1 produced. *)
Definition pipeline (q : Queues) (cb : World -> Result) : World -> Result :=
  runQueue (daq q) canDeactivate
    (runQueue (aq q) canActivate
       (runQueue (daq q) deactivate
          (activatePhase q cb))).

(** [RouteTransition.prototype.start] *)
Definition start (deactivateQueue : list View) (activateQueue : list Handler)
  (cb : World -> Result) : World -> Result :=
  pipeline (reusability deactivateQueue activateQueue).1 cb.

(** The completion callback the router passes to [start]. *)
Definition finished (w : World) : Result := Res (emit Done w) None [].

(** ** The constructor *)

(** An entry of [to._matched]. *)
Record Match := { handler : Handler }.

(** [RouteTransition(router, to, from)]: the deactivate queue is
    [router._views] as it stands; the activate queue holds the handler of
    each entry of [to._matched], and is empty when [to._matched] is absent. *)
Definition RouteTransition (views : list View) (matched : option (list Match))
  : list View * list Handler :=
  (views, map handler (match matched with Some m => m | None => [] end)).

(** * Specification vocabulary *)

(** The argument pairs the loop can pass to [canReuse], by index. *)
Definition probes (rdaq : list View) (aq : list Handler)
  : list (View * option Handler) :=
  imap (fun k v => (v, aq !! k)) rdaq.

(** The count [i] the loop of [start] ends with. *)
Definition reuseCount (deactivateQueue : list View) (activateQueue : list Handler)
  : nat :=
  (reuseLoop (reverse deactivateQueue) activateQueue 0 []).1.

(** The error as [onError] re-raises it. *)
Definition reraised (err : value) : value :=
  if instanceofError err then err else newError err.

(** The warning [onError] issues when it re-raises. *)
Definition raiseWarning (r : Result) (err : value) : list event :=
  match thrown r with
  | Some _ => []
  | None =>
      if truthy err && negb (suppress (world r))
      then [Warn "Uncaught error during transition: "] else []
  end.

(** The pipeline calls among the events: what the transition has done so
    far, leaving out warnings, re-navigation and error reports. *)
Definition isPipelineCall (e : event) : bool :=
  match e with
  | CanDeactivate _ | CanActivate _ | Deactivate _ | UpdateRoute
  | Reuse _ | Activate _ _ | Done => true
  | Replace _ | Warn _ | Cleanup | Uncaught _ => false
  end.

Definition progress (w : World) : list event :=
  List.filter isPipelineCall (trace w).

Definition isReplace (e : event) : bool :=
  match e with Replace _ => true | _ => false end.

Definition navigations (w : World) : nat :=
  length (List.filter isReplace (trace w)).

(** A result that made no progress in an aborted transition: no pipeline
    call, no re-navigation, no new hook invocation. *)
Definition inert (w : World) (r : Result) : Prop :=
  aborted (world r) = true
  /\ progress (world r) = progress w
  /\ navigations (world r) = navigations w
  /\ pending r = [].

(** An invocation whose [next] has been called cannot advance the pipeline
    any more. *)
Definition Settled (inv : Invocation Result) : Prop := i_nextCalled inv = true.

(** [Good rest k]: the continuation [k], run in a transition that is not
    aborted, makes the next pipeline calls of [rest] in order, and leaves at
    most one hook invocation able to continue, with what then remains. *)
Inductive Good : list event -> (World -> Result) -> Prop :=
| Good_intro rest k :
    (forall w, aborted w = false ->
       exists took rest',
         rest = took ++ rest'
         /\ progress (world (k w)) = progress w ++ took
         /\ (aborted (world (k w)) = true
             \/ Forall Settled (pending (k w))
             \/ exists l1 inv l2 k',
                  pending (k w) = l1 ++ inv :: l2
                  /\ Forall Settled l1 /\ Forall Settled l2
                  /\ i_nextCalled inv = false
                  /\ i_cb inv = Some k'
                  /\ forall d, Good rest' (k' d))) ->
    Good rest k.

(** A pool of suspended invocations of which at most one can continue. *)
Definition Pool (rest : list event) (pool : list (Invocation Result)) : Prop :=
  Forall Settled pool
  \/ exists l1 inv l2 k',
       pool = l1 ++ inv :: l2
       /\ Forall Settled l1 /\ Forall Settled l2
       /\ i_nextCalled inv = false
       /\ i_cb inv = Some k'
       /\ forall d, Good rest (k' d).

(** The result [r] of code started in world [w] stayed within [rest]. *)
Definition Advanced (rest : list event) (w : World) (r : Result) : Prop :=
  exists took rest',
    rest = took ++ rest'
    /\ progress (world r) = progress w ++ took
    /\ (aborted (world r) = true \/ Pool rest' (pending r)).

(** Code that made no pipeline call and started no hook. *)
Definition Quiet (w : World) (r : Result) : Prop :=
  progress (world r) = progress w
  /\ pending r = []
  /\ (aborted w = true -> aborted (world r) = true).

(** Either nothing moved and [next] is still to be called, or [next] was
    called and the pipeline stayed on schedule. *)
Definition LiveOutcome (rest : list event) (w : World) (s : bool * Result) : Prop :=
  (s.1 = false /\ Quiet w s.2) \/ (s.1 = true /\ Advanced rest w s.2).

(** What a closure of the invocation does, by whether [next] was called. *)
Definition Outcome (rest : list event) (nc : bool) (w : World) (s : bool * Result) : Prop :=
  (nc = true -> s.1 = true /\ Quiet w s.2)
  /\ (nc = false -> LiveOutcome rest w s).

(** The invariant: the pipeline calls made so far are an initial part of
    the schedule [S], and unless the transition is aborted at most one
    suspended invocation can make the next one. *)
Definition Within (S : list event) (c : Config) : Prop :=
  exists took rest,
    S = took ++ rest
    /\ progress c.1 = took
    /\ (aborted c.1 = true \/ Pool rest c.2).

(** The commit part: the location update, one [reuse] per reused view, then
    the single [activate] on the last remaining view, or [cb] at once. *)
Definition commitSchedule (q : Queues) : list event :=
  UpdateRoute
  :: map Reuse (default [] (reuseQueue q))
  ++ match last (daq q) with
     | Some view =>
         [Activate view (match reuseQueue q with
                         | Some rq => length rq
                         | None => 0
                         end); Done]
     | None => [Done]
     end.

(** Every pipeline call a transition can make, in the order of the source. *)
Definition schedule (q : Queues) : list event :=
  map CanDeactivate (daq q)
  ++ map CanActivate (aq q)
  ++ map Deactivate (daq q)
  ++ commitSchedule q.

(** The phase a pipeline call belongs to. *)
Definition phase (e : event) : nat :=
  match e with
  | CanDeactivate _ => 0
  | CanActivate _ => 1
  | Deactivate _ => 2
  | UpdateRoute => 3
  | Reuse _ => 4
  | Activate _ _ => 5
  | Done => 6
  | Replace _ | Warn _ | Cleanup | Uncaught _ => 0
  end.

Definition ascending (l : list event) : Prop :=
  forall i j e1 e2, i < j -> l !! i = Some e1 -> l !! j = Some e2 ->
    phase e1 <= phase e2.

Definition isUncaught (e : event) : bool :=
  match e with Uncaught _ => true | _ => false end.

(** [Keeps P T k]: started in a world where [P] holds, the continuation
    [k] ends in one where [P] holds, raises only what [T] allows, and the
    hook invocations it leaves suspended hold continuations of the same
    kind. *)
Inductive Keeps (P : World -> Prop) (T : option value -> Prop)
  : (World -> Result) -> Prop :=
| Keeps_intro k :
    (forall w, P w ->
       P (world (k w)) /\ T (thrown (k w))
       /\ Forall (fun inv => forall k', i_cb inv = Some k' ->
                               forall d, Keeps P T (k' d))
                 (pending (k w))) ->
    Keeps P T k.

Definition Kept (P : World -> Prop) (T : option value -> Prop)
  (inv : Invocation Result) : Prop :=
  forall k', i_cb inv = Some k' -> forall d, Keeps P T (k' d).

Definition Sound (P : World -> Prop) (T : option value -> Prop) (r : Result)
  : Prop :=
  P (world r) /\ T (thrown r) /\ Forall (Kept P T) (pending r).

Definition Kept_config (P : World -> Prop) (T : option value -> Prop)
  (c : Config) : Prop :=
  P c.1 /\ Forall (Kept P T) c.2.

(** The world with the events [es] made after those it already has. *)
Definition extend (es : list event) (w : World) : World :=
  {| aborted := aborted w; suppress := suppress w; trace := trace w ++ es |}.

(** * Properties *)

(** ** Phase 1: the reusability loop *)

Section ReusabilityFacts.

Variables (rdaq : list View) (aq : list Handler).

Lemma probes_lookup k :
  probes rdaq aq !! k = (fun v => (v, aq !! k)) <$> rdaq !! k.
Proof. unfold probes. by rewrite list_lookup_imap. Qed.

Lemma reuseLoop_eq i calls :
  reuseLoop rdaq aq i calls =
  match rdaq !! i with
  | None => (i, calls)
  | Some v =>
      if canReuse v (aq !! i)
      then reuseLoop rdaq aq (S i) (calls ++ [(v, aq !! i)])
      else (i, calls ++ [(v, aq !! i)])
  end.
Proof.
  rewrite reuseLoop_equation_1.
  destruct (inspect (rdaq !! i)) as [[v|] Hv]; cbn.
  - destruct (canReuse v (aq !! i)) eqn:Hc; cbn; by rewrite Hv, Hc.
  - by rewrite Hv.
Qed.

Lemma drop_probe i v :
  rdaq !! i = Some v ->
  drop i (probes rdaq aq) = (v, aq !! i) :: drop (S i) (probes rdaq aq).
Proof.
  intros Hv. apply drop_S. by rewrite probes_lookup, Hv.
Qed.

(** The loop stops at the first index where [canReuse] fails, or at the end
    of [rdaq]; it has then probed every index up to and including that one. *)
Lemma reuseLoop_spec n : forall i calls,
  length rdaq - i = n ->
  exists j,
    reuseLoop rdaq aq i calls = (j, calls ++ take (S j - i) (drop i (probes rdaq aq)))
    /\ i <= j
    /\ (i <= length rdaq -> j <= length rdaq)
    /\ (forall k v, i <= k < j -> rdaq !! k = Some v ->
          canReuse v (aq !! k) = true)
    /\ (forall v, rdaq !! j = Some v -> canReuse v (aq !! j) = false).
Proof.
  induction n as [n IH] using lt_wf_ind. intros i calls Hn.
  rewrite reuseLoop_eq.
  destruct (rdaq !! i) as [v|] eqn:Hv.
  - pose proof (lookup_lt_Some _ _ _ Hv) as Hlt.
    destruct (canReuse v (aq !! i)) eqn:Hc.
    + destruct (IH (length rdaq - S i) ltac:(lia) (S i)
                  (calls ++ [(v, aq !! i)]) eq_refl)
        as (j & Hj & Hle & Hlen & Hpre & Hstop).
      exists j. rewrite Hj. repeat split; [|lia|lia| |done].
      * rewrite <- app_assoc. do 2 f_equal. rewrite (drop_probe i v Hv).
        replace (S j - i) with (S (S j - S i)) by lia. done.
      * intros k v' Hk Hv'. destruct (decide (k = i)) as [->|].
        -- congruence.
        -- apply (Hpre k v'); [lia|done].
    + exists i. repeat split; [|lia|lia| |congruence].
      * rewrite (drop_probe i v Hv). by replace (S i - i) with 1 by lia.
      * intros; lia.
  - exists i. repeat split; [|lia|lia| |congruence].
    + apply lookup_ge_None in Hv.
      rewrite drop_ge; [by rewrite take_nil, app_nil_r|].
      unfold probes. by rewrite length_imap.
    + intros; lia.
Qed.

End ReusabilityFacts.

Lemma reusability_eq deactivateQueue activateQueue :
  let rdaq := reverse deactivateQueue in
  let i := reuseCount deactivateQueue activateQueue in
  reusability deactivateQueue activateQueue =
  (if (0 <? i)%nat
   then {| reuseQueue := Some (take i rdaq);
           daq := reverse (drop i rdaq);
           aq := drop i activateQueue |}
   else {| reuseQueue := None; daq := deactivateQueue; aq := activateQueue |},
   take (S i) (probes rdaq activateQueue))
  /\ i <= length rdaq
  /\ (forall k v, k < i -> rdaq !! k = Some v ->
        canReuse v (activateQueue !! k) = true)
  /\ (forall v, rdaq !! i = Some v -> canReuse v (activateQueue !! i) = false).
Proof.
  intros rdaq i.
  destruct (reuseLoop_spec rdaq activateQueue _ 0 [] eq_refl)
    as (j & Hj & _ & Hlen & Hpre & Hstop).
  assert (i = j) as -> by (unfold i, reuseCount; fold rdaq; by rewrite Hj).
  unfold reusability. fold rdaq. rewrite Hj. cbn [app] in *.
  rewrite drop_0, Nat.sub_0_r.
  repeat split; [by destruct (0 <? j)%nat|lia| |done].
  intros k v Hk. apply Hpre. lia.
Qed.

(** C1 (as the code has it): [canReuse] is applied to the index-aligned pairs
    [(rdaq[k], aq[k])] for [k = 0, 1, ...], where [rdaq] is the deactivate
    queue reversed and [aq[k]] is absent past the end of [aq]; the loop stops
    at the first failure or when [rdaq] is exhausted.  With [i] the number of
    successes, a positive [i] makes [reuseQueue] the first [i] elements of
    [rdaq], the remaining deactivate queue the rest of [rdaq] reversed back,
    and the remaining activate queue [aq] without its first [i] handlers;
    [i = 0] leaves the queues as they were and [reuseQueue] undefined. *)
Theorem reusability_index_aligned_prefix
  (deactivateQueue : list View) (activateQueue : list Handler) :
  let rdaq := reverse deactivateQueue in
  exists i,
    i <= length rdaq
    /\ (forall k v, k < i -> rdaq !! k = Some v ->
          canReuse v (activateQueue !! k) = true)
    /\ (forall v, rdaq !! i = Some v -> canReuse v (activateQueue !! i) = false)
    /\ (reusability deactivateQueue activateQueue).2
       = take (S i) (imap (fun k v => (v, activateQueue !! k)) rdaq)
    /\ (0 < i ->
        (reusability deactivateQueue activateQueue).1 =
        {| reuseQueue := Some (take i rdaq);
           daq := reverse (drop i rdaq);
           aq := drop i activateQueue |})
    /\ (i = 0 ->
        (reusability deactivateQueue activateQueue).1 =
        {| reuseQueue := None; daq := deactivateQueue; aq := activateQueue |}).
Proof.
  intros rdaq.
  destruct (reusability_eq deactivateQueue activateQueue)
    as (Heq & Hlen & Hpre & Hstop).
  exists (reuseCount deactivateQueue activateQueue).
  rewrite Heq. cbn [fst snd]. repeat split; [done..| |].
  - intros Hi. by destruct (Nat.ltb_spec 0 (reuseCount deactivateQueue activateQueue)); [|lia].
  - by intros ->.
Qed.

(** C4 (as the code has it): the reuse queue is never longer than the
    deactivate queue; it is bounded by the activate queue as well exactly
    when it is [canReuse] that rejects an absent handler, because the loop
    itself only tests the deactivate queue's length. *)
Theorem reuseQueue_length_bound
  (deactivateQueue : list View) (activateQueue : list Handler) (rq : list View) :
  reuseQueue (reusability deactivateQueue activateQueue).1 = Some rq ->
  0 < length rq <= length deactivateQueue
  /\ ((forall v, canReuse v None = false) ->
      length rq <= length deactivateQueue `min` length activateQueue).
Proof.
  destruct (reusability_eq deactivateQueue activateQueue)
    as (Heq & Hlen & Hpre & Hstop).
  rewrite Heq. cbn [fst]. rewrite length_reverse in Hlen.
  set (i := reuseCount deactivateQueue activateQueue) in *.
  destruct (Nat.ltb_spec 0 i) as [Hpos|]; [|done].
  intros [= <-]. rewrite length_take, length_reverse.
  split; [lia|]. intros Hnone.
  destruct (decide (i <= length activateQueue)) as [|Hgt]; [lia|].
  (* the loop would have stopped at index [length activateQueue] *)
  destruct (lookup_lt_is_Some_2 (reverse deactivateQueue) (length activateQueue))
    as [v Hv]; [rewrite length_reverse; lia|].
  specialize (Hpre (length activateQueue) v ltac:(lia) Hv).
  rewrite (lookup_ge_None_2 activateQueue) in Hpre by lia.
  rewrite Hnone in Hpre. done.
Qed.

(** C10: when the old view chain is strictly longer than the new handler
    chain and [canReuse] accepts every aligned pair, the loop goes on to
    index [length activateQueue], reads the activate queue past its end and
    applies [canReuse] to the absent handler ([None]). *)
Theorem reuseLoop_reads_past_activateQueue
  (deactivateQueue : list View) (activateQueue : list Handler) :
  length activateQueue < length deactivateQueue ->
  (forall k v h, reverse deactivateQueue !! k = Some v ->
     activateQueue !! k = Some h -> canReuse v (Some h) = true) ->
  exists v,
    reverse deactivateQueue !! length activateQueue = Some v
    /\ activateQueue !! length activateQueue = None
    /\ (reusability deactivateQueue activateQueue).2 !! length activateQueue
       = Some (v, None).
Proof.
  intros Hlt Hall.
  destruct (reusability_eq deactivateQueue activateQueue)
    as (Heq & Hlen & Hpre & Hstop).
  rewrite Heq. cbn [snd].
  set (i := reuseCount deactivateQueue activateQueue) in *.
  destruct (lookup_lt_is_Some_2 (reverse deactivateQueue) (length activateQueue))
    as [v Hv]; [rewrite length_reverse; lia|].
  assert (activateQueue !! length activateQueue = None) as Hnone
    by (apply lookup_ge_None_2; lia).
  exists v. split; [done|]. split; [done|].
  assert (length activateQueue <= i) as Hi.
  { destruct (decide (length activateQueue <= i)) as [|Hn]; [done|].
    destruct (lookup_lt_is_Some_2 activateQueue i) as [h Hh]; [lia|].
    destruct (lookup_lt_is_Some_2 (reverse deactivateQueue) i) as [u Hu];
      [rewrite length_reverse; lia|].
    specialize (Hstop u Hu). rewrite Hh, (Hall i u h Hu Hh) in Hstop. done. }
  rewrite lookup_take_lt by lia.
  by rewrite probes_lookup, Hv, Hnone.
Qed.

(** ** The control surface and [next] *)

Lemma progress_emit e w :
  progress (emit e w) = progress w ++ (if isPipelineCall e then [e] else []).
Proof.
  unfold progress, emit; cbn. rewrite List.filter_app. cbn.
  by destruct (isPipelineCall e).
Qed.

Lemma abort_aborted w : aborted (abort w) = true.
Proof. unfold abort. by destruct (aborted w) eqn:E. Qed.

Lemma redirect_aborted p w : aborted (redirect p w) = true.
Proof. unfold redirect. by destruct (aborted w) eqn:E. Qed.

Lemma abort_noop w : aborted w = true -> abort w = w.
Proof. unfold abort. by intros ->. Qed.

Lemma redirect_noop p w : aborted w = true -> redirect p w = w.
Proof. unfold redirect. by intros ->. Qed.

Lemma progress_abort w : progress (abort w) = progress w.
Proof.
  unfold abort. destruct (negb (aborted w)); [|done].
  rewrite progress_emit. cbn. by rewrite app_nil_r.
Qed.

Lemma progress_redirect p w : progress (redirect p w) = progress w.
Proof.
  unfold redirect. destruct (negb (aborted w)); [|done].
  rewrite progress_emit. cbn. by rewrite app_nil_r.
Qed.

Lemma hookAbort_aborted cleanup w : aborted (hookAbort cleanup w) = true.
Proof. apply abort_aborted. Qed.

Lemma progress_hookAbort cleanup w :
  progress (hookAbort cleanup w) = progress w.
Proof.
  unfold hookAbort. rewrite progress_abort.
  destruct cleanup; [|done]. rewrite progress_emit. cbn. by rewrite app_nil_r.
Qed.

(** In an aborted transition [next] never reaches the continuation. *)
Lemma next_aborted cb data nc w :
  aborted w = true ->
  next cb data nc w =
  (true, Res (if nc then warn "transition.next() should be called only once." w
              else w) None []).
Proof.
  intros Hw. unfold next. destruct nc; [done|]. destruct cb; [|done].
  by rewrite Hw.
Qed.

(** What [onError] amounts to: the phase-dependent side effect, then the
    re-raise of a truthy error unless suppressed. *)
Lemma onError_eq cb cleanup err nc w :
  onError cb cleanup err nc w =
  let '(nc', r) := if cleanup then next cb VUndefined nc w
                   else (nc, Res (hookAbort cleanup w) None []) in
  (nc',
   match thrown r with
   | Some _ => r
   | None =>
       if truthy err && negb (suppress (world r))
       then Res (warn "Uncaught error during transition: " (world r))
                (Some (if instanceofError err then err else newError err))
                (pending r)
       else r
   end).
Proof.
  unfold onError.
  destruct (if cleanup then _ else _) as [nc' r].
  destruct (thrown r); [done|].
  by destruct (truthy err && negb (suppress (world r))).
Qed.

Lemma normalized_is_Error err :
  instanceofError (if instanceofError err then err else newError err) = true.
Proof. by destruct err. Qed.

Lemma navigations_emit e w :
  navigations (emit e w) = navigations w + (if isReplace e then 1 else 0).
Proof.
  unfold navigations, emit; cbn. rewrite List.filter_app, length_app. cbn.
  by destruct (isReplace e).
Qed.

Lemma inert_same w : aborted w = true -> inert w (Res w None []).
Proof. by intros Hw. Qed.

Lemma inert_emit e t w :
  aborted w = true -> isPipelineCall e = false -> isReplace e = false ->
  inert w (Res (emit e w) t []).
Proof.
  intros Hw He Hr. unfold inert; cbn [world pending].
  rewrite progress_emit, navigations_emit, He, Hr, app_nil_r.
  repeat split; [done|lia].
Qed.

Lemma hookAbort_inert cleanup w :
  aborted w = true -> inert w (Res (hookAbort cleanup w) None []).
Proof.
  intros Hw. unfold hookAbort. destruct cleanup.
  - rewrite abort_noop by done. by apply inert_emit.
  - rewrite abort_noop by done. by apply inert_same.
Qed.

Lemma next_inert cb data nc w :
  aborted w = true -> inert w (next cb data nc w).2.
Proof.
  intros Hw. rewrite next_aborted by done. cbn [snd].
  destruct nc; [by apply inert_emit|by apply inert_same].
Qed.

Lemma exposed_inert cb cleanup c nc w :
  aborted w = true -> inert w (exposed cb cleanup c nc w).2.
Proof.
  intros Hw. destruct c as [data| |p]; cbn [exposed snd].
  - by apply next_inert.
  - by apply hookAbort_inert.
  - rewrite redirect_noop by done. by apply inert_same.
Qed.

Lemma inert_rethrow w r e :
  inert w r ->
  inert w (Res (warn "Uncaught error during transition: " (world r)) (Some e)
               (pending r)).
Proof.
  intros (Ha & Hp & Hn & Hq). unfold inert, warn; cbn [world pending].
  rewrite progress_emit, navigations_emit. cbn. rewrite app_nil_r.
  repeat split; [done..|lia|done].
Qed.

Lemma onError_inert cb cleanup err nc w :
  aborted w = true -> inert w (onError cb cleanup err nc w).2.
Proof.
  intros Hw. rewrite onError_eq.
  assert (inert w (if cleanup then next cb VUndefined nc w
                   else (nc, Res (hookAbort cleanup w) None [])).2) as Hin.
  { destruct cleanup; [by apply next_inert|by apply hookAbort_inert]. }
  destruct (if cleanup then _ else _) as [nc' r]. cbn [snd] in *.
  destruct (thrown r); [done|].
  destruct (truthy err && negb (suppress (world r))); [|done].
  by apply inert_rethrow.
Qed.

Lemma resume_inert inv inv' r w :
  aborted w = true -> resume inv w = Some (inv', r) -> inert w r.
Proof.
  intros Hw. unfold resume. destruct (i_script inv) as [|ev rest]; [done|].
  destruct ev as [c|v|e].
  - pose proof (exposed_inert (i_cb inv) (i_cleanup inv) c (i_nextCalled inv) w Hw).
    destruct (exposed _ _ _ _ _). by intros [= <- <-].
  - destruct (i_reaction inv); [|intros [= <- <-]; by apply inert_same].
    destruct (i_expectBoolean inv).
    + destruct (truthy v).
      * pose proof (next_inert (i_cb inv) VUndefined (i_nextCalled inv) w Hw).
        destruct (next _ _ _ _). by intros [= <- <-].
      * intros [= <- <-]. by apply hookAbort_inert.
    + pose proof (next_inert (i_cb inv) v (i_nextCalled inv) w Hw).
      destruct (next _ _ _ _). by intros [= <- <-].
  - destruct (i_reaction inv); [|intros [= <- <-]; by apply inert_same].
    pose proof (onError_inert (i_cb inv) (i_cleanup inv) e (i_nextCalled inv) w Hw).
    destruct (onError _ _ _ _ _). by intros [= <- <-].
Qed.

Lemma surface_inert w r :
  inert w r ->
  aborted (surface r) = true
  /\ progress (surface r) = progress w
  /\ navigations (surface r) = navigations w.
Proof.
  intros (Ha & Hp & Hn & _). unfold surface. destruct (thrown r); [|done].
  rewrite progress_emit, navigations_emit. cbn. rewrite app_nil_r.
  repeat split; [done..|lia].
Qed.

(** Once a transition is aborted, no step of the event loop moves it. *)
Lemma fire_aborted k c :
  aborted c.1 = true ->
  aborted (fire k c).1 = true
  /\ progress (fire k c).1 = progress c.1
  /\ navigations (fire k c).1 = navigations c.1
  /\ length (fire k c).2 = length c.2.
Proof.
  intros Hw. unfold fire. destruct (c.2 !! k) as [inv|]; [|done].
  destruct (resume inv c.1) as [[inv' r]|] eqn:Hr; [|done].
  pose proof (resume_inert _ _ _ _ Hw Hr) as Hin.
  destruct (surface_inert _ _ Hin) as (? & ? & ?).
  destruct Hin as (_ & _ & _ & Hq). cbn [fst snd].
  rewrite Hq, app_nil_r, length_insert. done.
Qed.

(** C5: [aborted] is sticky.  In an aborted transition [abort] and
    [redirect] change nothing (so the first caller wins and there is no
    second re-navigation), [next] does not reach the pending continuation
    whatever it is, and no step the event loop gives to a suspended hook
    makes a pipeline call, re-navigates, starts a hook or clears the flag. *)
Theorem aborted_is_sticky (w : World) :
  aborted w = true ->
  abort w = w
  /\ (forall p, redirect p w = w)
  /\ (forall cb data nc,
        next cb data nc w =
        (true, Res (if nc
                    then warn "transition.next() should be called only once." w
                    else w) None []))
  /\ (forall k pool,
        aborted (fire k (w, pool)).1 = true
        /\ progress (fire k (w, pool)).1 = progress w
        /\ navigations (fire k (w, pool)).1 = navigations w
        /\ length (fire k (w, pool)).2 = length pool).
Proof.
  intros Hw. split; [by apply abort_noop|].
  split; [intros p; by apply redirect_noop|].
  split; [intros cb data nc; by apply next_aborted|].
  intros k pool. by apply (fire_aborted k (w, pool)).
Qed.

(** C6: whatever the first call of [next] did, it leaves [nextCalled] set,
    and a further call only warns: it does not reach the continuation,
    throws nothing, starts nothing and leaves the rest of the state alone. *)
Theorem next_only_first_call_counts
  (cb : option Continuation) (d1 d2 : value) (nc : bool) (w : World) :
  (next cb d1 nc w).1 = true
  /\ next cb d2 (next cb d1 nc w).1 (world (next cb d1 nc w).2) =
     (true,
      Res (warn "transition.next() should be called only once."
                (world (next cb d1 nc w).2)) None [])
  /\ aborted (world (next cb d2 (next cb d1 nc w).1 (world (next cb d1 nc w).2)).2)
     = aborted (world (next cb d1 nc w).2)
  /\ progress (world (next cb d2 (next cb d1 nc w).1 (world (next cb d1 nc w).2)).2)
     = progress (world (next cb d1 nc w).2).
Proof.
  assert ((next cb d1 nc w).1 = true) as H1.
  { unfold next. destruct nc; [done|]. destruct cb; [|done].
    by destruct (aborted w). }
  split; [done|]. rewrite H1. cbn [next fst snd world].
  split; [done|]. split; [done|].
  unfold warn. rewrite progress_emit. cbn. by rewrite app_nil_r.
Qed.

(** ** The error path of [callHook] *)

(** A hook that throws, after calls on the exposed object that raised
    nothing. *)
Lemma callHook_throws cb eb cl h err w :
  finish h = Throws err ->
  let pre := runBody cb cl (body h) false w [] in
  thrown pre.2 = None ->
  callHook h cb eb cl w =
  Res (world (onError cb cl err pre.1 (world pre.2)).2)
      (thrown (onError cb cl err pre.1 (world pre.2)).2)
      (pending pre.2 ++ pending (onError cb cl err pre.1 (world pre.2)).2
         ++ [suspend cb eb cl h (onError cb cl err pre.1 (world pre.2)).1 false]).
Proof.
  intros Hf pre Hpre. unfold callHook. fold pre.
  destruct pre as [nc r0]. cbn [fst snd] in *. rewrite Hpre, Hf.
  by destruct (onError cb cl err nc (world r0)).
Qed.

(** The rejection of a thenable the hook returned runs [onError]. *)
Lemma resume_rejects inv err rest w :
  i_script inv = Rejects err :: rest -> i_reaction inv = true ->
  exists inv',
    resume inv w =
    Some (inv', (onError (i_cb inv) (i_cleanup inv) err (i_nextCalled inv) w).2).
Proof.
  intros Hs Hr. unfold resume. rewrite Hs, Hr.
  destruct (onError _ _ _ _ _). eauto.
Qed.

Lemma onError_cleanup_trace cb err nc w :
  trace (world (onError cb true err nc w).2) =
  trace (world (next cb VUndefined nc w).2)
  ++ raiseWarning (next cb VUndefined nc w).2 err.
Proof.
  rewrite onError_eq. unfold raiseWarning.
  destruct (next cb VUndefined nc w) as [nc' r]. cbn [snd].
  destruct (thrown r); [by rewrite app_nil_r|].
  destruct (truthy err && negb (suppress (world r))); [done|].
  by rewrite app_nil_r.
Qed.

(** C2 (as the code has it): with a cleanup supplied, a hook that throws,
    or a returned thenable that rejects, makes the protocol call [next()]
    with no payload and nothing else before it: the cleanup is not run (it
    runs only on [abort]), and the only event the protocol adds after
    [next()] is the warning that goes with the re-raise.  With a
    continuation pending, [next] not called yet and the transition not
    aborted, [next()] is that continuation run on the untouched world. *)
Theorem error_after_commit_advances_without_cleanup
  (cb : option Continuation) (eb : bool) (h : hook) (err : value) (w : World) :
  finish h = Throws err ->
  let pre := runBody cb true (body h) false w [] in
  thrown pre.2 = None ->
  let r := (next cb VUndefined pre.1 (world pre.2)).2 in
  trace (world (callHook h cb eb true w)) = trace (world r) ++ raiseWarning r err
  /\ (forall inv rest w',
        i_script inv = Rejects err :: rest -> i_reaction inv = true ->
        i_cleanup inv = true ->
        exists inv' r',
          resume inv w' = Some (inv', r')
          /\ trace (world r') =
             trace (world (next (i_cb inv) VUndefined (i_nextCalled inv) w').2)
             ++ raiseWarning (next (i_cb inv) VUndefined (i_nextCalled inv) w').2 err)
  /\ (forall k, cb = Some k -> pre.1 = false -> aborted (world pre.2) = false ->
        r = k VUndefined (world pre.2)).
Proof.
  intros Hf pre Hpre r.
  split.
  { rewrite (callHook_throws _ _ _ _ _ _ Hf Hpre). cbn [world].
    apply onError_cleanup_trace. }
  split.
  - intros inv rest w' Hs Hr Hc.
    destruct (resume_rejects inv err rest w' Hs Hr) as [inv' Hinv'].
    exists inv', (onError (i_cb inv) (i_cleanup inv) err (i_nextCalled inv) w').2.
    split; [done|]. rewrite Hc. apply onError_cleanup_trace.
  - intros k -> Hn Hw. subst r. rewrite Hn. unfold next. by rewrite Hw.
Qed.

Lemma onError_cleanup_thrown cb err nc w :
  truthy err = true ->
  thrown (next cb VUndefined nc w).2 = None ->
  thrown (onError cb true err nc w).2 =
  (if suppress (world (next cb VUndefined nc w).2) then None
   else Some (reraised err)).
Proof.
  intros Ht Hr. rewrite onError_eq.
  destruct (next cb VUndefined nc w) as [nc' r]. cbn [snd] in *.
  rewrite Hr, Ht. cbn. by destruct (suppress (world r)).
Qed.

(** C3 (as the code has it): when a hook throws a truthy error after the
    commit point, [callHook] re-raises it to its own caller, synchronously,
    once [next()] has returned; when the returned thenable rejects, the
    rejection handler re-raises it.  Nothing is re-raised when the router
    suppresses errors, and what is re-raised is always an [Error]. *)
Theorem error_after_commit_reraised_in_place
  (cb : option Continuation) (eb : bool) (h : hook) (err : value) (w : World) :
  finish h = Throws err -> truthy err = true ->
  let pre := runBody cb true (body h) false w [] in
  thrown pre.2 = None ->
  let r := (next cb VUndefined pre.1 (world pre.2)).2 in
  thrown r = None ->
  thrown (callHook h cb eb true w) =
    (if suppress (world r) then None else Some (reraised err))
  /\ instanceofError (reraised err) = true
  /\ (forall inv rest w',
        i_script inv = Rejects err :: rest -> i_reaction inv = true ->
        i_cleanup inv = true ->
        thrown (next (i_cb inv) VUndefined (i_nextCalled inv) w').2 = None ->
        exists inv' r',
          resume inv w' = Some (inv', r')
          /\ thrown r' =
             (if suppress (world (next (i_cb inv) VUndefined (i_nextCalled inv) w').2)
              then None else Some (reraised err))).
Proof.
  intros Hf Ht pre Hpre r Hr.
  split.
  { rewrite (callHook_throws _ _ _ _ _ _ Hf Hpre). cbn [thrown].
    by apply onError_cleanup_thrown. }
  split; [apply normalized_is_Error|].
  intros inv rest w' Hs Hre Hc Hn.
  destruct (resume_rejects inv err rest w' Hs Hre) as [inv' Hinv'].
  exists inv', (onError (i_cb inv) (i_cleanup inv) err (i_nextCalled inv) w').2.
  split; [done|]. rewrite Hc. by apply onError_cleanup_thrown.
Qed.

(** C9: a falsy error still takes the error path, [abort()] before the
    commit point and [next()] after it, but [onError] raises nothing of its
    own, whether or not the router suppresses errors; this holds for a hook
    that throws and for a thenable that rejects. *)
Theorem falsy_error_is_not_reraised
  (cb : option Continuation) (eb cl : bool) (h : hook) (err : value) (w : World) :
  truthy err = false ->
  (forall nc w',
     onError cb cl err nc w' =
     if cl then next cb VUndefined nc w'
     else (nc, Res (hookAbort cl w') None []))
  /\ (finish h = Throws err ->
      let pre := runBody cb cl (body h) false w [] in
      thrown pre.2 = None ->
      world (callHook h cb eb cl w) =
        (if cl then world (next cb VUndefined pre.1 (world pre.2)).2
         else hookAbort cl (world pre.2))
      /\ thrown (callHook h cb eb cl w) =
        (if cl then thrown (next cb VUndefined pre.1 (world pre.2)).2 else None))
  /\ (forall inv rest w',
        i_script inv = Rejects err :: rest -> i_reaction inv = true ->
        i_cleanup inv = cl -> i_cb inv = cb ->
        exists inv',
          resume inv w' =
          Some (inv',
                if cl then (next cb VUndefined (i_nextCalled inv) w').2
                else Res (hookAbort cl w') None [])).
Proof.
  intros Ht.
  assert (forall nc w',
     onError cb cl err nc w' =
     if cl then next cb VUndefined nc w'
     else (nc, Res (hookAbort cl w') None [])) as Heq.
  { intros nc w'. rewrite onError_eq, Ht. cbn.
    destruct (if cl then _ else _) as [nc' r]. by destruct (thrown r). }
  split; [done|]. split.
  - intros Hf pre Hpre. rewrite (callHook_throws _ _ _ _ _ _ Hf Hpre), Heq.
    by destruct cl.
  - intros inv rest w' Hs Hr Hc Hcb.
    destruct (resume_rejects inv err rest w' Hs Hr) as [inv' Hinv'].
    exists inv'. rewrite Hinv', Hc, Hcb, Heq. by destruct cl.
Qed.

(** ** [runQueue] as a fold *)

Lemma step_eq {A} (queue : list A) fn done index :
  step queue fn done index =
  match queue !! index with
  | None => done
  | Some x => fn x (fun _ => step queue fn done (index + 1))
  end.
Proof.
  rewrite step_equation_1.
  destruct (inspect (queue !! index)) as [[x|] Hx]; cbn; by rewrite Hx.
Qed.

Lemma step_drop {A} (queue : list A) fn done n : forall index,
  length queue - index = n ->
  step queue fn done index =
  foldr (fun x k => fn x (fun _ => k)) done (drop index queue).
Proof.
  induction n as [n IH] using lt_wf_ind. intros index Hn.
  rewrite step_eq. destruct (queue !! index) as [x|] eqn:Hx.
  - pose proof (lookup_lt_Some _ _ _ Hx).
    rewrite (drop_S _ _ _ Hx). cbn [foldr].
    rewrite (IH (length queue - (index + 1)) ltac:(lia) (index + 1) eq_refl).
    by replace (index + 1) with (S index) by lia.
  - apply lookup_ge_None in Hx. by rewrite drop_ge.
Qed.

(** Item [i + 1] is handed to [fn] by the continuation given to item [i],
    and [done] is the continuation of the last item. *)
Lemma runQueue_foldr {A} (queue : list A) fn done :
  runQueue queue fn done = foldr (fun x k => fn x (fun _ => k)) done queue.
Proof. unfold runQueue. by rewrite (step_drop queue fn done _ 0 eq_refl), drop_0. Qed.

(** ** The pipeline never leaves its schedule *)

Lemma Good_inv rest k w :
  Good rest k -> aborted w = false -> Advanced rest w (k w).
Proof. intros HG Hw. inversion HG as [? ? H]; subst. by apply H. Qed.

Lemma Good_of_Advanced rest k :
  (forall w, aborted w = false -> Advanced rest w (k w)) -> Good rest k.
Proof. intros H. constructor. intros w Hw. by apply H. Qed.

Lemma Quiet_refl w t : Quiet w (Res w t []).
Proof. by unfold Quiet. Qed.

Lemma Quiet_trans w r r' :
  Quiet w r -> Quiet (world r) r' -> Quiet w r'.
Proof.
  intros (Hp & _ & Ha) (Hp' & Hq' & Ha'). unfold Quiet.
  rewrite Hp', Hp. auto.
Qed.

Lemma Quiet_hookAbort cleanup w : Quiet w (Res (hookAbort cleanup w) None []).
Proof.
  unfold Quiet; cbn [world pending].
  rewrite progress_hookAbort, hookAbort_aborted. auto.
Qed.

Lemma Quiet_redirect p w : Quiet w (Res (redirect p w) None []).
Proof.
  unfold Quiet; cbn [world pending].
  rewrite progress_redirect, redirect_aborted. auto.
Qed.

Lemma Quiet_warn msg t w : Quiet w (Res (warn msg w) t []).
Proof.
  unfold Quiet, warn; cbn [world pending].
  rewrite progress_emit. cbn. by rewrite app_nil_r.
Qed.

Lemma Quiet_rethrow w r e :
  Quiet w r ->
  Quiet w (Res (warn "Uncaught error during transition: " (world r)) (Some e)
               (pending r)).
Proof.
  intros (Hp & Hq & Ha). unfold Quiet, warn; cbn [world pending].
  rewrite progress_emit. cbn. rewrite app_nil_r. auto.
Qed.

Lemma Advanced_ext rest w r r' :
  Advanced rest w r ->
  progress (world r') = progress (world r) ->
  (aborted (world r) = true -> aborted (world r') = true) ->
  pending r' = pending r ->
  Advanced rest w r'.
Proof.
  intros (took & rest' & -> & Hp & Hor) Hp' Ha Hq.
  exists took, rest'. rewrite Hp', Hq. split; [done|]. split; [done|].
  destruct Hor; auto.
Qed.

Lemma Advanced_after_quiet rest w r r' :
  Quiet w r -> Advanced rest (world r) r' -> Advanced rest w r'.
Proof.
  intros (Hp & _ & _) (took & rest' & -> & Hp' & Hor).
  exists took, rest'. by rewrite Hp', Hp.
Qed.

Lemma Advanced_aborted rest w r :
  progress (world r) = progress w -> aborted (world r) = true ->
  Advanced rest w r.
Proof.
  intros Hp Ha. exists [], rest. rewrite app_nil_r. auto.
Qed.

Lemma Pool_snoc_settled rest pool inv :
  Pool rest pool -> Settled inv -> Pool rest (pool ++ [inv]).
Proof.
  intros [Hall|(l1 & i & l2 & k' & -> & H1 & H2 & Hn & Hc & HG)] Hs.
  - left. apply Forall_app. split; [done|]. by constructor.
  - right. exists l1, i, (l2 ++ [inv]), k'.
    rewrite <- app_assoc. cbn. split_and!; try done.
    apply Forall_app. split; [done|]. by constructor.
Qed.

Lemma Pool_settled_app rest l pool :
  Forall Settled l -> Pool rest pool -> Pool rest (l ++ pool).
Proof.
  intros Hl [Hall|(l1 & i & l2 & k' & -> & H1 & H2 & Hn & Hc & HG)].
  - left. by apply Forall_app.
  - right. exists (l ++ l1), i, l2, k'.
    rewrite <- app_assoc. split_and!; try done. by apply Forall_app.
Qed.

(** *** The closures once [next] has been called *)

Section Closures.

Variables (cb : option Continuation) (cl : bool).

Lemma next_settled data w :
  (next cb data true w).1 = true /\ Quiet w (next cb data true w).2.
Proof. split; [done|]. apply Quiet_warn. Qed.

Lemma onError_settled err w :
  (onError cb cl err true w).1 = true /\ Quiet w (onError cb cl err true w).2.
Proof.
  rewrite onError_eq.
  assert (let s := if cl then next cb VUndefined true w
                   else (true, Res (hookAbort cl w) None []) in
          s.1 = true /\ Quiet w s.2) as Hs.
  { destruct cl; [apply next_settled|]. split; [done|apply Quiet_hookAbort]. }
  cbn zeta in Hs. destruct (if cl then _ else _) as [nc r].
  cbn [fst snd] in *. destruct Hs as [-> Hq]. split; [done|].
  destruct (thrown r); [done|].
  destruct (truthy err && negb (suppress (world r))); [|done].
  by apply Quiet_rethrow.
Qed.

Lemma exposed_settled c w :
  (exposed cb cl c true w).1 = true /\ Quiet w (exposed cb cl c true w).2.
Proof.
  destruct c as [data| |p]; cbn [exposed fst snd].
  - apply next_settled.
  - split; [done|apply Quiet_hookAbort].
  - split; [done|apply Quiet_redirect].
Qed.

Lemma runBody_settled calls : forall w p,
  (runBody cb cl calls true w p).1 = true
  /\ progress (world (runBody cb cl calls true w p).2) = progress w
  /\ pending (runBody cb cl calls true w p).2 = p
  /\ (aborted w = true -> aborted (world (runBody cb cl calls true w p).2) = true).
Proof.
  induction calls as [|c calls IH]; intros w p; cbn [runBody]; [done|].
  destruct (exposed_settled c w) as [Hnc (Hp & Hq & Ha)].
  destruct (exposed cb cl c true w) as [nc r]. cbn [fst snd] in *. subst nc.
  rewrite Hq, app_nil_r. destruct (thrown r); [cbn [fst snd world pending]; split_and!; auto|].
  destruct (IH (world r) p) as (Hnc' & Hp' & Hpe' & Ha').
  rewrite Hp', Hp. split_and!; auto.
Qed.

End Closures.

(** *** The closures of an invocation that can still advance *)

Section LiveClosures.

Variables (rest : list event) (k : Continuation) (cl : bool).
Hypothesis Hk : forall d, Good rest (k d).

Lemma next_live data w :
  (next (Some k) data false w).1 = true
  /\ Advanced rest w (next (Some k) data false w).2.
Proof.
  unfold next. destruct (aborted w) eqn:Hw; cbn [fst snd].
  - split; [done|]. by apply Advanced_aborted.
  - split; [done|]. by apply Good_inv.
Qed.

Lemma Advanced_rethrow w r e :
  Advanced rest w r ->
  Advanced rest w (Res (warn "Uncaught error during transition: " (world r))
                       (Some e) (pending r)).
Proof.
  intros H. apply (Advanced_ext _ _ _ _ H); [|done..].
  unfold warn; cbn [world]. rewrite progress_emit. cbn. by rewrite app_nil_r.
Qed.

Lemma onError_live err w : LiveOutcome rest w (onError (Some k) cl err false w).
Proof.
  rewrite onError_eq. destruct cl.
  - destruct (next_live VUndefined w) as [Hn Ha].
    destruct (next (Some k) VUndefined false w) as [nc r].
    cbn [fst snd] in *. right. split; [done|].
    destruct (thrown r); [done|].
    destruct (truthy err && negb (suppress (world r))); [|done].
    by apply Advanced_rethrow.
  - left. split; [done|]. cbn [snd thrown world pending].
    destruct (truthy err && negb (suppress (hookAbort false w))).
    + apply (Quiet_rethrow w (Res (hookAbort false w) None [])).
      apply Quiet_hookAbort.
    + apply Quiet_hookAbort.
Qed.

Lemma exposed_live c w : LiveOutcome rest w (exposed (Some k) cl c false w).
Proof.
  destruct c as [data| |p]; cbn [exposed].
  - right. apply next_live.
  - left. split; [done|apply Quiet_hookAbort].
  - left. split; [done|apply Quiet_redirect].
Qed.

Lemma runBody_live calls : forall w,
  LiveOutcome rest w (runBody (Some k) cl calls false w []).
Proof.
  induction calls as [|c calls IH]; intros w; cbn [runBody].
  { left. split; [done|apply Quiet_refl]. }
  destruct (exposed_live c w) as [[Hnc Hq]|[Hnc Ha]];
    destruct (exposed (Some k) cl c false w) as [nc r];
    cbn [fst snd app] in *; subst nc.
  - destruct (thrown r).
    + left. split; [done|]. destruct Hq as (? & ? & ?). by split.
    + destruct Hq as (Hp & Hpe & Hab). rewrite Hpe.
      destruct (IH (world r)) as [[Hnc' Hq']|[Hnc' Ha']].
      * left. split; [done|]. apply (Quiet_trans w r); [by split|done].
      * right. split; [done|]. apply (Advanced_after_quiet rest w r); [by split|done].
  - destruct (thrown r).
    + right. split; [done|]. by apply (Advanced_ext _ _ _ _ Ha).
    + destruct (runBody_settled (Some k) cl calls (world r) (pending r))
        as (Hnc' & Hp' & Hpe' & Hab').
      right. split; [done|]. by apply (Advanced_ext _ _ _ _ Ha).
Qed.

End LiveClosures.

(** *** One [callHook] invocation stays on schedule *)

Section HookOutcome.

Variables (rest : list event) (k : Continuation) (cl : bool).
Hypothesis Hk : forall d, Good rest (k d).

Lemma next_outcome data nc w : Outcome rest nc w (next (Some k) data nc w).
Proof.
  destruct nc; split; intros; try congruence.
  - apply next_settled.
  - right. by apply next_live.
Qed.

Lemma onError_outcome err nc w : Outcome rest nc w (onError (Some k) cl err nc w).
Proof.
  destruct nc; split; intros; try congruence.
  - apply onError_settled.
  - by apply onError_live.
Qed.

Lemma abort_outcome nc w : Outcome rest nc w (nc, Res (hookAbort cl w) None []).
Proof.
  destruct nc; split; intros; try congruence; cbn [fst snd].
  - split; [done|apply Quiet_hookAbort].
  - left. split; [done|apply Quiet_hookAbort].
Qed.

Lemma skip_outcome nc w : Outcome rest nc w (nc, Res w None []).
Proof.
  destruct nc; split; intros; try congruence; cbn [fst snd].
  - split; [done|apply Quiet_refl].
  - left. split; [done|apply Quiet_refl].
Qed.

Lemma exposed_outcome c nc w : Outcome rest nc w (exposed (Some k) cl c nc w).
Proof.
  destruct nc; split; intros; try congruence.
  - apply exposed_settled.
  - by apply exposed_live.
Qed.

Lemma Pool_live eb h reg : Pool rest [suspend (Some k) eb cl h false reg].
Proof.
  right. exists [], (suspend (Some k) eb cl h false reg), [], k.
  split_and!; try done; apply Forall_nil_2.
Qed.

(** The calls of the hook body, one further closure, and the invocation
    left suspended. *)
Lemma finish_advanced eb h w (s0 s' : bool * Result) reg t :
  LiveOutcome rest w s0 ->
  Outcome rest s0.1 (world s0.2) s' ->
  Advanced rest w
    (Res (world s'.2) t
         (pending s0.2 ++ pending s'.2 ++ [suspend (Some k) eb cl h s'.1 reg])).
Proof.
  intros [[Hnc (Hp & Hq & Hab)]|[Hnc Hadv]] [Hset Hlive].
  - rewrite Hq. cbn [app]. destruct (Hlive Hnc) as [[Hnc' (Hp' & Hq' & _)]|[Hnc' Hadv']].
    + rewrite Hq', Hnc'. cbn [app]. exists [], rest.
      rewrite app_nil_r. cbn [world pending]. split; [done|].
      split; [congruence|]. right. apply Pool_live.
    + destruct Hadv' as (took & rest' & -> & Hp' & Hor).
      exists took, rest'. cbn [world pending]. split; [done|].
      split; [congruence|]. destruct Hor as [?|HP]; [by left|right].
      rewrite Hnc'. by apply Pool_snoc_settled.
  - destruct (Hset Hnc) as [Hnc' (Hp' & Hq' & Hab')].
    destruct Hadv as (took & rest' & -> & Hp & Hor).
    exists took, rest'. cbn [world pending]. split; [done|].
    split; [congruence|]. destruct Hor as [?|HP]; [left; auto|right].
    rewrite Hq', Hnc'. cbn [app]. by apply Pool_snoc_settled.
Qed.

Lemma callHook_advanced eb h w :
  Advanced rest w (callHook h (Some k) eb cl w).
Proof.
  unfold callHook.
  pose proof (runBody_live rest k cl Hk (body h) w) as H0.
  destruct (runBody (Some k) cl (body h) false w []) as [nc r] eqn:Hrun.
  destruct (match thrown r with Some e => Throws e | None => finish h end)
    as [err|res].
  - pose proof (onError_outcome err nc (world r)) as H1.
    destruct (onError (Some k) cl err nc (world r)) as [nc' r'].
    apply (finish_advanced eb h w (nc, r) (nc', r') false (thrown r') H0 H1).
  - destruct eb; [destruct (isBoolean res); [destruct (truthy res)|]|].
    + pose proof (next_outcome VUndefined nc (world r)) as H1.
      destruct (next (Some k) VUndefined nc (world r)) as [nc' r'].
      apply (finish_advanced true h w (nc, r) (nc', r') false (thrown r') H0 H1).
    + apply (finish_advanced true h w (nc, r)
               (nc, Res (hookAbort cl (world r)) None []) false None H0
               (abort_outcome nc (world r))).
    + destruct (isPromise res);
        apply (finish_advanced true h w (nc, r) (nc, Res (world r) None []) _ None
                 H0 (skip_outcome nc (world r))).
    + destruct (isPromise res);
        apply (finish_advanced false h w (nc, r) (nc, Res (world r) None []) _ None
                 H0 (skip_outcome nc (world r))).
Qed.

(** A pipeline call followed by the hook of its item. *)
Lemma callHook_good e eb h :
  isPipelineCall e = true ->
  Good (e :: rest) (fun w => callHook h (Some k) eb cl (emit e w)).
Proof.
  intros He. apply Good_of_Advanced. intros w _.
  destruct (callHook_advanced eb h (emit e w)) as (took & rest' & -> & Hp & Hor).
  exists (e :: took), rest'. split; [done|]. split; [|done].
  rewrite Hp, progress_emit, He, <- app_assoc. done.
Qed.

(** The next step of a suspended invocation that can still advance. *)
Lemma resume_live inv inv' r w :
  i_nextCalled inv = false -> i_cb inv = Some k -> i_cleanup inv = cl ->
  resume inv w = Some (inv', r) ->
  i_cb inv' = Some k /\ LiveOutcome rest w (i_nextCalled inv', r).
Proof.
  intros Hn Hc Hcl. unfold resume.
  destruct (i_script inv) as [|ev script]; [done|]. rewrite Hn, Hc, Hcl.
  assert (forall s : bool * Result, Outcome rest false w s ->
            Some ({| i_nextCalled := s.1; i_cb := Some k;
                     i_expectBoolean := i_expectBoolean inv; i_cleanup := cl;
                     i_reaction := match ev with
                                   | Later _ => i_reaction inv
                                   | _ => false
                                   end;
                     i_script := script |}, s.2) = Some (inv', r) ->
            i_cb inv' = Some k /\ LiveOutcome rest w (i_nextCalled inv', r)) as Hgen.
  { intros [nc' r'] [_ Hl] [= <- <-]. split; [done|]. by apply Hl. }
  destruct ev as [c|v|e].
  - pose proof (exposed_outcome c false w) as Ho.
    destruct (exposed (Some k) cl c false w) as [nc' r']. by apply (Hgen (nc', r')).
  - destruct (i_reaction inv); [|apply (Hgen (false, Res w None [])), skip_outcome].
    destruct (i_expectBoolean inv); [destruct (truthy v)|].
    + pose proof (next_outcome VUndefined false w) as Ho.
      destruct (next (Some k) VUndefined false w) as [nc' r']. by apply (Hgen (nc', r')).
    + apply (Hgen (false, Res (hookAbort cl w) None [])), abort_outcome.
    + pose proof (next_outcome v false w) as Ho.
      destruct (next (Some k) v false w) as [nc' r']. by apply (Hgen (nc', r')).
  - destruct (i_reaction inv); [|apply (Hgen (false, Res w None [])), skip_outcome].
    pose proof (onError_outcome e false w) as Ho.
    destruct (onError (Some k) cl e false w) as [nc' r']. by apply (Hgen (nc', r')).
Qed.

End HookOutcome.

(** The next step of a suspended invocation whose [next] was called. *)
Lemma resume_settled inv inv' r w :
  Settled inv -> resume inv w = Some (inv', r) -> Settled inv' /\ Quiet w r.
Proof.
  unfold Settled. intros Hn. unfold resume.
  destruct (i_script inv) as [|ev script]; [done|]. rewrite Hn.
  assert (forall s : bool * Result, s.1 = true /\ Quiet w s.2 ->
            Some ({| i_nextCalled := s.1; i_cb := i_cb inv;
                     i_expectBoolean := i_expectBoolean inv;
                     i_cleanup := i_cleanup inv;
                     i_reaction := match ev with
                                   | Later _ => i_reaction inv
                                   | _ => false
                                   end;
                     i_script := script |}, s.2) = Some (inv', r) ->
            i_nextCalled inv' = true /\ Quiet w r) as Hgen.
  { by intros [nc' r'] [Hs Hq] [= <- <-]. }
  assert (Quiet w (Res w None [])) as Hrefl by apply Quiet_refl.
  destruct ev as [c|v|e].
  - pose proof (exposed_settled (i_cb inv) (i_cleanup inv) c w) as Ho.
    destruct (exposed _ _ c true w) as [nc' r']. by apply (Hgen (nc', r')).
  - destruct (i_reaction inv); [|by apply (Hgen (true, Res w None []))].
    destruct (i_expectBoolean inv); [destruct (truthy v)|].
    + pose proof (next_settled (i_cb inv) VUndefined w) as Ho.
      destruct (next _ VUndefined true w) as [nc' r']. by apply (Hgen (nc', r')).
    + apply (Hgen (true, Res (hookAbort (i_cleanup inv) w) None [])).
      split; [done|apply Quiet_hookAbort].
    + pose proof (next_settled (i_cb inv) v w) as Ho.
      destruct (next _ v true w) as [nc' r']. by apply (Hgen (nc', r')).
  - destruct (i_reaction inv); [|by apply (Hgen (true, Res w None []))].
    pose proof (onError_settled (i_cb inv) (i_cleanup inv) e w) as Ho.
    destruct (onError _ _ e true w) as [nc' r']. by apply (Hgen (nc', r')).
Qed.

(** *** The event loop keeps the pipeline on schedule *)

Lemma lookup_middle {A} (l1 l2 : list A) x k y :
  (l1 ++ x :: l2) !! k = Some y ->
  (l1 !! k = Some y
   /\ forall z, <[k:=z]> (l1 ++ x :: l2) = <[k:=z]> l1 ++ x :: l2)
  \/ (y = x /\ forall z, <[k:=z]> (l1 ++ x :: l2) = l1 ++ z :: l2)
  \/ (exists j, l2 !! j = Some y
        /\ forall z, <[k:=z]> (l1 ++ x :: l2) = l1 ++ x :: <[j:=z]> l2).
Proof.
  intros Hk. destruct (decide (k < length l1)) as [Hlt|Hge].
  - left. rewrite lookup_app_l in Hk by done. split; [done|].
    intros z. by rewrite insert_app_l.
  - right. replace k with (length l1 + (k - length l1)) in * by lia.
    rewrite lookup_app_r in Hk by lia.
    replace (length l1 + (k - length l1) - length l1) with (k - length l1) in Hk
      by lia.
    destruct (k - length l1) as [|j] eqn:Hj; cbn in Hk.
    + left. injection Hk as <-. split; [done|]. intros z.
      by rewrite insert_app_r.
    + right. exists j. split; [done|]. intros z. by rewrite insert_app_r.
Qed.

Lemma Pool_step rest pool k inv inv' r w :
  Pool rest pool -> pool !! k = Some inv -> resume inv w = Some (inv', r) ->
  exists took rest',
    rest = took ++ rest'
    /\ progress (world r) = progress w ++ took
    /\ (aborted (world r) = true \/ Pool rest' (<[k:=inv']> pool ++ pending r)).
Proof.
  intros HP Hlook Hres.
  destruct HP as [Hall|(l1 & inv0 & l2 & k' & -> & H1 & H2 & Hn & Hc & HG)].
  - (* every invocation has had its [next] *)
    pose proof (Forall_lookup_1 _ _ _ _ Hall Hlook) as Hs.
    destruct (resume_settled _ _ _ _ Hs Hres) as [Hs' (Hp & Hq & _)].
    exists [], rest. rewrite !app_nil_r, Hq, app_nil_r.
    split; [done|]. split; [done|]. right. left. by apply Forall_insert.
  - destruct (lookup_middle _ _ _ _ _ Hlook) as [[Hl Hins]|[[-> Hins]|(j & Hl & Hins)]];
      rewrite Hins.
    + pose proof (Forall_lookup_1 _ _ _ _ H1 Hl) as Hs.
      destruct (resume_settled _ _ _ _ Hs Hres) as [Hs' (Hp & Hq & _)].
      exists [], rest. rewrite !app_nil_r, Hq, app_nil_r.
      split; [done|]. split; [done|]. right. right.
      exists (<[k:=inv']> l1), inv0, l2, k'. split_and!; try done.
      by apply Forall_insert.
    + destruct (resume_live rest k' (i_cleanup inv0) HG _ _ _ _ Hn Hc eq_refl Hres)
        as [Hc' [[Hn' (Hp & Hq & _)]|[Hn' (took & rest' & -> & Hp & Hor)]]];
        cbn [fst snd] in *.
      * exists [], rest. rewrite !app_nil_r, Hq, app_nil_r.
        split; [done|]. split; [done|]. right. right.
        exists l1, inv', l2, k'. by split_and!.
      * exists took, rest'. split; [done|]. split; [done|].
        destruct Hor as [?|HP]; [by left|right].
        apply Pool_settled_app; [|done].
        apply Forall_app. split; [done|]. by constructor.
    + pose proof (Forall_lookup_1 _ _ _ _ H2 Hl) as Hs.
      destruct (resume_settled _ _ _ _ Hs Hres) as [Hs' (Hp & Hq & _)].
      exists [], rest. rewrite !app_nil_r, Hq, app_nil_r.
      split; [done|]. split; [done|]. right. right.
      exists l1, inv0, (<[j:=inv']> l2), k'. split_and!; try done.
      by apply Forall_insert.
Qed.

Lemma progress_surface r : progress (surface r) = progress (world r).
Proof.
  unfold surface. destruct (thrown r); [|done].
  rewrite progress_emit. cbn. by rewrite app_nil_r.
Qed.

Lemma aborted_surface r : aborted (surface r) = aborted (world r).
Proof. unfold surface. by destruct (thrown r). Qed.

Lemma boot_within S K s :
  Good S K -> Within S (boot (K (fresh s))).
Proof.
  intros HG.
  destruct (Good_inv S K (fresh s) HG eq_refl) as (took & rest & -> & Hp & Hor).
  exists took, rest. unfold boot; cbn [fst snd].
  rewrite progress_surface, aborted_surface. auto.
Qed.

Lemma fire_within S k c : Within S c -> Within S (fire k c).
Proof.
  intros (took & rest & -> & Hp & Hor). unfold fire.
  destruct (c.2 !! k) as [inv|] eqn:Hlook; [|by exists took, rest].
  destruct (resume inv c.1) as [[inv' r]|] eqn:Hres; [|by exists took, rest].
  destruct (aborted c.1) eqn:Hab.
  - destruct (surface_inert _ _ (resume_inert _ _ _ _ Hab Hres)) as (Ha & Hp' & _).
    exists took, rest. cbn [fst snd]. rewrite Hp'. auto.
  - destruct Hor as [?|HP]; [done|].
    destruct (Pool_step _ _ _ _ _ _ _ HP Hlook Hres)
      as (took' & rest' & -> & Hp' & Hor').
    exists (took ++ took'), rest'. cbn [fst snd].
    rewrite progress_surface, aborted_surface, Hp', Hp, <- app_assoc. auto.
Qed.

Lemma run_within S ks : forall c, Within S c -> Within S (run ks c).
Proof.
  induction ks as [|k ks IH]; intros c Hc; [done|].
  apply IH. by apply fire_within.
Qed.

Lemma within_prefix S c : Within S c -> progress c.1 `prefix_of` S.
Proof. intros (took & rest & -> & <- & _). by exists rest. Qed.

(** Whatever the hooks do and in whatever order the event loop resumes
    them, a continuation that is on schedule [S] never makes a pipeline call
    outside [S] or out of its order. *)
Lemma good_schedule S K s ks :
  Good S K -> progress (run ks (boot (K (fresh s)))).1 `prefix_of` S.
Proof. intros HG. by apply within_prefix, run_within, boot_within. Qed.

(** ** The schedule of [start] *)

Lemma finished_good : Good [Done] finished.
Proof.
  apply Good_of_Advanced. intros w _. exists [Done], [].
  unfold finished; cbn [world pending]. rewrite progress_emit. cbn.
  split; [done|]. split; [done|]. right. left. apply Forall_nil_2.
Qed.

Lemma activate_good view depth :
  Good [Activate view depth; Done] (activate view depth finished).
Proof.
  apply (callHook_good [Done] (fun _ => finished) true (fun _ => finished_good)
           (Activate view depth) false (activateHook view) eq_refl).
Qed.

Lemma reuse_foldl rq : forall w,
  progress (foldl (fun w view => reuse view w) w rq) = progress w ++ map Reuse rq
  /\ aborted (foldl (fun w view => reuse view w) w rq) = aborted w.
Proof.
  induction rq as [|v rq IH]; intros w; cbn [foldl map].
  - by rewrite app_nil_r.
  - destruct (IH (reuse v w)) as [-> ->]. unfold reuse.
    rewrite progress_emit. cbn. by rewrite <- app_assoc.
Qed.

Lemma Advanced_prepend pre rest w w' r :
  progress w' = progress w ++ pre -> Advanced rest w' r ->
  Advanced (pre ++ rest) w r.
Proof.
  intros Hw (took & rest' & -> & Hp & Hor).
  exists (pre ++ took), rest'. rewrite Hp, Hw, <- !app_assoc. auto.
Qed.

Lemma activatePhase_good q : Good (commitSchedule q) (activatePhase q finished).
Proof.
  apply Good_of_Advanced. intros w Hw. unfold activatePhase, commitSchedule.
  set (w2 := match reuseQueue q with
             | Some rq => foldl (fun w view => reuse view w) (emit UpdateRoute w) rq
             | None => emit UpdateRoute w
             end).
  assert (progress w2 = progress w ++ UpdateRoute :: map Reuse (default [] (reuseQueue q))
          /\ aborted w2 = false) as [Hp Ha].
  { unfold w2. destruct (reuseQueue q) as [rq|]; cbn [default].
    - destruct (reuse_foldl rq (emit UpdateRoute w)) as [-> ->].
      rewrite progress_emit. cbn. by rewrite <- app_assoc.
    - by rewrite progress_emit. }
  change (UpdateRoute :: ?l ++ ?t) with ((UpdateRoute :: l) ++ t).
  apply (Advanced_prepend _ _ w w2); [done|].
  destruct (last (daq q)) as [view|].
  - by apply Good_inv; [apply activate_good|].
  - by apply Good_inv; [apply finished_good|].
Qed.

Lemma runQueue_good {A} (ev : A -> event) fn (queue : list A) R done :
  (forall x rest k, Good rest k -> Good (ev x :: rest) (fn x (fun _ => k))) ->
  Good R done ->
  Good (map ev queue ++ R) (runQueue queue fn done).
Proof.
  intros Hfn Hdone. rewrite runQueue_foldr.
  induction queue as [|x queue IH]; cbn [foldr map app]; [done|].
  by apply Hfn.
Qed.

Lemma canDeactivate_good x rest k :
  Good rest k -> Good (CanDeactivate x :: rest) (canDeactivate x (fun _ => k)).
Proof.
  intros Hk.
  apply (callHook_good rest (fun _ => k) false (fun _ => Hk)
           (CanDeactivate x) true (canDeactivateHook x) eq_refl).
Qed.

Lemma canActivate_good x rest k :
  Good rest k -> Good (CanActivate x :: rest) (canActivate x (fun _ => k)).
Proof.
  intros Hk.
  apply (callHook_good rest (fun _ => k) false (fun _ => Hk)
           (CanActivate x) true (canActivateHook x) eq_refl).
Qed.

Lemma deactivate_good x rest k :
  Good rest k -> Good (Deactivate x :: rest) (deactivate x (fun _ => k)).
Proof.
  intros Hk.
  apply (callHook_good rest (fun _ => k) false (fun _ => Hk)
           (Deactivate x) false (deactivateHook x) eq_refl).
Qed.

Lemma pipeline_good q : Good (schedule q) (pipeline q finished).
Proof.
  unfold schedule, pipeline.
  apply runQueue_good; [apply canDeactivate_good|].
  apply runQueue_good; [apply canActivate_good|].
  apply runQueue_good; [apply deactivate_good|].
  apply activatePhase_good.
Qed.

(** *** The schedule goes through the phases in order *)

Lemma ascending_app l1 l2 :
  ascending l1 -> ascending l2 ->
  (forall a b, a ∈ l1 -> b ∈ l2 -> phase a <= phase b) ->
  ascending (l1 ++ l2).
Proof.
  intros H1 H2 H12 i j e1 e2 Hij Hi Hj.
  apply lookup_app_Some in Hi as [Hi|[Hli Hi]];
    apply lookup_app_Some in Hj as [Hj|[Hlj Hj]].
  - by apply (H1 i j).
  - apply H12; by eapply list_elem_of_lookup_2.
  - apply lookup_lt_Some in Hj. lia.
  - apply (H2 (i - length l1) (j - length l1)); [lia|done..].
Qed.

Lemma ascending_level n l :
  (forall a, a ∈ l -> phase a = n) -> ascending l.
Proof.
  intros Hl i j e1 e2 _ Hi Hj.
  rewrite (Hl e1), (Hl e2); [done|by eapply list_elem_of_lookup_2..].
Qed.

Lemma level_map {A} (ev : A -> event) n (l : list A) :
  (forall x, phase (ev x) = n) -> forall a, a ∈ map ev l -> phase a = n.
Proof. intros Hev a Ha. apply list_elem_of_fmap in Ha as (x & -> & _). apply Hev. Qed.

Lemma commitSchedule_phases q :
  ascending (commitSchedule q)
  /\ forall a, a ∈ commitSchedule q -> 3 <= phase a.
Proof.
  unfold commitSchedule. split.
  - apply (ascending_app [UpdateRoute]).
    + by apply (ascending_level 3); intros a ->%list_elem_of_singleton.
    + apply ascending_app.
      * by apply (ascending_level 4), level_map.
      * destruct (last (daq q)); intros [|[|[|i]]] [|[|[|j]]] e1 e2 Hij; cbn;
          intros [= <-] [= <-]; cbn; lia.
      * intros a b Ha Hb. rewrite (level_map Reuse 4 _ (fun _ => eq_refl) a Ha).
        destruct (last (daq q));
          repeat (apply elem_of_cons in Hb as [->|Hb]; [cbn; lia|]);
          by apply elem_of_nil in Hb.
    + intros a b ->%list_elem_of_singleton Hb. cbn.
      apply elem_of_app in Hb as [Hb|Hb].
      * rewrite (level_map Reuse 4 _ (fun _ => eq_refl) b Hb). lia.
      * destruct (last (daq q));
          repeat (apply elem_of_cons in Hb as [->|Hb]; [cbn; lia|]);
          by apply elem_of_nil in Hb.
  - intros a Ha. apply elem_of_cons in Ha as [->|Ha]; [done|].
    apply elem_of_app in Ha as [Ha|Ha].
    + rewrite (level_map Reuse 4 _ (fun _ => eq_refl) a Ha). lia.
    + destruct (last (daq q));
        repeat (apply elem_of_cons in Ha as [->|Ha]; [cbn; lia|]);
        by apply elem_of_nil in Ha.
Qed.

Lemma schedule_ascending q : ascending (schedule q).
Proof.
  destruct (commitSchedule_phases q) as [Hasc Hge].
  pose proof (level_map CanDeactivate 0 (daq q) (fun _ => eq_refl)) as H0.
  pose proof (level_map CanActivate 1 (aq q) (fun _ => eq_refl)) as H1.
  pose proof (level_map Deactivate 2 (daq q) (fun _ => eq_refl)) as H2.
  unfold schedule.
  apply ascending_app; [by apply (ascending_level 0)| |].
  - apply ascending_app; [by apply (ascending_level 1)| |].
    + apply ascending_app; [by apply (ascending_level 2)|done|].
      intros a b Ha Hb. rewrite (H2 a Ha). specialize (Hge b Hb). lia.
    + intros a b Ha Hb. rewrite (H1 a Ha).
      apply elem_of_app in Hb as [Hb|Hb];
        [rewrite (H2 b Hb)|specialize (Hge b Hb)]; lia.
  - intros a b Ha Hb. rewrite (H0 a Ha). lia.
Qed.

Lemma ascending_earlier l i j e1 e2 :
  ascending l -> l !! i = Some e1 -> l !! j = Some e2 ->
  phase e1 < phase e2 -> i < j.
Proof.
  intros Hl Hi Hj Hlt. destruct (decide (i < j)) as [|Hge]; [done|].
  destruct (decide (i = j)) as [->|Hne].
  - rewrite Hi in Hj. injection Hj as ->. lia.
  - pose proof (Hl j i e2 e1 ltac:(lia) Hj Hi). lia.
Qed.

(** C7: whatever the route hooks do (call [next] once, twice or never,
    abort, redirect, throw, return booleans or thenables) and in whatever
    order the event loop resumes them, the pipeline calls a transition has
    made are an initial part of its schedule: [canDeactivate] on each
    remaining view in index order, then [canActivate] on each remaining
    handler, then [deactivate] on each remaining view, then the location
    update, then the [reuse] notifications, then the single [activate] (or
    [cb]).  So a call of an earlier phase always comes before a call of a
    later one, and inside [runQueue] item [i + 1] is handed to [fn] by the
    very continuation given to item [i]. *)
Theorem pipeline_phases_in_order
  (deactivateQueue : list View) (activateQueue : list Handler)
  (suppressed : bool) (ks : list nat) :
  let q := (reusability deactivateQueue activateQueue).1 in
  let made :=
    progress (run ks (boot (start deactivateQueue activateQueue finished
                              (fresh suppressed)))).1 in
  made `prefix_of` schedule q
  /\ (forall i j e1 e2,
        made !! i = Some e1 -> made !! j = Some e2 ->
        phase e1 < phase e2 -> i < j)
  /\ (forall (queue : list View) fn done,
        runQueue queue fn done = foldr (fun x k => fn x (fun _ => k)) done queue)
  /\ (forall (queue : list Handler) fn done,
        runQueue queue fn done = foldr (fun x k => fn x (fun _ => k)) done queue).
Proof.
  intros q made.
  assert (made `prefix_of` schedule q) as Hpre.
  { apply (good_schedule (schedule q) (pipeline q finished)), pipeline_good. }
  split; [done|]. split.
  - intros i j e1 e2 Hi Hj.
    apply (ascending_earlier (schedule q)); [apply schedule_ascending|..];
      by eapply prefix_lookup_Some.
  - split; intros; apply runQueue_foldr.
Qed.

(** ** A boolean returned by the hook *)

(** A hook body that never calls [next] leaves [nextCalled] alone, raises
    nothing and makes no pipeline call. *)
Lemma runBody_without_next cb cl calls : forall nc w p,
  (forall d, CallNext d ∉ calls) ->
  (runBody cb cl calls nc w p).1 = nc
  /\ thrown (runBody cb cl calls nc w p).2 = None
  /\ progress (world (runBody cb cl calls nc w p).2) = progress w
  /\ pending (runBody cb cl calls nc w p).2 = p.
Proof.
  induction calls as [|c calls IH]; intros nc w p Hno; cbn [runBody]; [done|].
  assert (forall d, CallNext d ∉ calls) as Hno'.
  { intros d Hd. apply (Hno d). by apply list_elem_of_further. }
  destruct c as [d| |path]; cbn [exposed thrown world pending].
  - destruct (Hno d). apply list_elem_of_here.
  - rewrite app_nil_r. destruct (IH nc (hookAbort cl w) p Hno') as (-> & -> & -> & ->).
    by rewrite progress_hookAbort.
  - rewrite app_nil_r. destruct (IH nc (redirect path w) p Hno') as (-> & -> & -> & ->).
    by rewrite progress_redirect.
Qed.

(** What [callHook] does with a boolean when [expectBoolean] is set. *)
Lemma callHook_boolean cb cl h b w :
  finish h = Returns (VBool b) ->
  let pre := runBody cb cl (body h) false w [] in
  thrown pre.2 = None ->
  callHook h cb true cl w =
  if b
  then Res (world (next cb VUndefined pre.1 (world pre.2)).2)
           (thrown (next cb VUndefined pre.1 (world pre.2)).2)
           (pending pre.2 ++ pending (next cb VUndefined pre.1 (world pre.2)).2
              ++ [suspend cb true cl h (next cb VUndefined pre.1 (world pre.2)).1 false])
  else Res (hookAbort cl (world pre.2)) None
           (pending pre.2 ++ [suspend cb true cl h pre.1 false]).
Proof.
  intros Hf pre Hpre. unfold callHook. fold pre.
  destruct pre as [nc r]. cbn [fst snd] in *. rewrite Hpre, Hf. cbn.
  destruct b; [|done]. by destruct (next cb VUndefined nc (world r)).
Qed.

(** A hook that returns [false] without having called [next] aborts on the
    spot: its pipeline call is the last one. *)
Lemma refusal_good e h k :
  isPipelineCall e = true ->
  finish h = Returns (VBool false) ->
  (forall d, CallNext d ∉ body h) ->
  Good [e] (fun w => callHook h (Some k) true false (emit e w)).
Proof.
  intros He Hf Hno. apply Good_of_Advanced. intros w _.
  destruct (runBody_without_next (Some k) false (body h) false (emit e w) [] Hno)
    as (Hnc & Hth & Hp & Hq).
  rewrite (callHook_boolean _ _ _ false _ Hf Hth).
  exists [e], []. cbn [world pending]. split; [done|].
  rewrite progress_hookAbort, Hp, progress_emit, He, hookAbort_aborted. auto.
Qed.

Lemma runQueue_refused {A} (ev : A -> event) fn (queue : list A) done :
  (forall x rest k, Good rest k -> Good (ev x :: rest) (fn x (fun _ => k))) ->
  forall j x,
    queue !! j = Some x ->
    (forall k, Good [ev x] (fn x k)) ->
    Good (map ev (take (S j) queue)) (runQueue queue fn done).
Proof.
  intros Hfn. rewrite runQueue_foldr.
  induction queue as [|y queue IH]; intros j x Hj Hx; [done|].
  destruct j as [|j]; cbn in Hj |- *.
  - injection Hj as ->. rewrite take_0. apply Hx.
  - apply Hfn. by apply (IH j x).
Qed.

(** Once aborted, a transition makes no pipeline call however long the
    event loop goes on. *)
Lemma run_aborted ks : forall c,
  aborted c.1 = true ->
  aborted (run ks c).1 = true /\ progress (run ks c).1 = progress c.1.
Proof.
  induction ks as [|k ks IH]; intros c Hc; [done|]. cbn [run foldl].
  destruct (fire_aborted k c Hc) as (Ha & Hp & _).
  destruct (IH (fire k c) Ha) as [Ha' Hp']. unfold run in *.
  rewrite Hp', Hp. done.
Qed.

(** C8 (as the code has it): with [expectBoolean] set, a hook that returns
    a boolean is answered at once: [true] by [next()] with no payload,
    [false] by [abort()], and in neither case are handlers registered on
    anything (the suspended invocation has no reaction pending).  After a
    [false] the transition is aborted and no pipeline call is made from
    then on.  Consequently, when the [canActivate] hook of the handler at
    index [j] returns [false] without having called [next] itself, whatever
    the other hooks do and whenever they are resumed, no pipeline call is
    ever made after that [canActivate]: none for a later handler, no
    [deactivate], no location update, no [activate] and no completion. *)
Theorem canActivate_false_aborts_at_once
  (deactivateQueue : list View) (activateQueue : list Handler)
  (suppressed : bool) (ks : list nat) (j : nat) (handler : Handler) :
  let q := (reusability deactivateQueue activateQueue).1 in
  aq q !! j = Some handler ->
  finish (canActivateHook handler) = Returns (VBool false) ->
  (forall d, CallNext d ∉ body (canActivateHook handler)) ->
  progress (run ks (boot (start deactivateQueue activateQueue finished
                            (fresh suppressed)))).1
    `prefix_of` map CanDeactivate (daq q) ++ map CanActivate (take (S j) (aq q))
  /\ (forall cb cl h b w,
        finish h = Returns (VBool b) ->
        let pre := runBody cb cl (body h) false w [] in
        thrown pre.2 = None ->
        callHook h cb true cl w =
        if b
        then Res (world (next cb VUndefined pre.1 (world pre.2)).2)
                 (thrown (next cb VUndefined pre.1 (world pre.2)).2)
                 (pending pre.2 ++ pending (next cb VUndefined pre.1 (world pre.2)).2
                    ++ [suspend cb true cl h
                          (next cb VUndefined pre.1 (world pre.2)).1 false])
        else Res (hookAbort cl (world pre.2)) None
                 (pending pre.2 ++ [suspend cb true cl h pre.1 false]))
  /\ (forall cb cl h w,
        finish h = Returns (VBool false) ->
        let pre := runBody cb cl (body h) false w [] in
        thrown pre.2 = None ->
        aborted (world (callHook h cb true cl w)) = true
        /\ progress (world (callHook h cb true cl w)) = progress (world pre.2)
        /\ forall pool ks',
             progress (run ks' (world (callHook h cb true cl w), pool)).1
             = progress (world (callHook h cb true cl w))).
Proof.
  intros q Hj Hf Hno. split; [|split].
  - apply (good_schedule _ (pipeline q finished)). unfold pipeline.
    apply runQueue_good; [apply canDeactivate_good|].
    apply (runQueue_refused CanActivate canActivate (aq q) _ canActivate_good j handler Hj).
    intros k. by apply (refusal_good (CanActivate handler)).
  - intros cb cl h b w Hh pre Hpre. by apply callHook_boolean.
  - intros cb cl h w Hh pre Hpre.
    rewrite (callHook_boolean _ _ _ false _ Hh Hpre). fold pre. cbn [world].
    rewrite hookAbort_aborted, progress_hookAbort. split; [done|]. split; [done|].
    intros pool ks'.
    destruct (run_aborted ks' (hookAbort cl (world pre.2), pool)
                (hookAbort_aborted cl (world pre.2))) as [_ ->].
    cbn [fst]. by rewrite progress_hookAbort.
Qed.

(** * Further properties of the code *)

(** ** What phase 1 does to the queues *)

(** X1: phase 1 loses no view and no handler: the reversed deactivate queue is
    the reused views followed by the remaining ones (reversed back), and
    the activate queue is cut at the same index. *)
Theorem reusability_partitions_queues
  (deactivateQueue : list View) (activateQueue : list Handler) :
  let q := (reusability deactivateQueue activateQueue).1 in
  let reused := default [] (reuseQueue q) in
  reverse deactivateQueue = reused ++ reverse (daq q)
  /\ activateQueue = take (length reused) activateQueue ++ aq q
  /\ length reused + length (daq q) = length deactivateQueue.
Proof.
  intros q reused. subst q reused.
  destruct (reusability_eq deactivateQueue activateQueue) as (Heq & Hlen & _ & _).
  rewrite Heq. cbn [fst].
  set (i := reuseCount deactivateQueue activateQueue) in *.
  destruct (Nat.ltb_spec 0 i) as [Hpos|Hz]; cbn [reuseQueue daq aq default from_option id].
  - rewrite reverse_involutive, take_drop, length_take.
    replace (i `min` length (reverse deactivateQueue)) with i by lia.
    rewrite take_drop. split; [done|]. split; [done|].
    rewrite length_reverse, length_drop, length_reverse.
    rewrite length_reverse in Hlen. lia.
  - by rewrite take_0.
Qed.

(** X2: when something is left to deactivate, [activate] is called on
    [rdaq[i]], the first view [canReuse] rejected, and [depth] is [i], the
    number of reused views; [activatePhase] is exactly the location update,
    the [reuse] notifications in [rdaq] order, then that call (or [cb]). *)
Theorem activate_target_is_first_rejected_view
  (deactivateQueue : list View) (activateQueue : list Handler) :
  let q := (reusability deactivateQueue activateQueue).1 in
  let rdaq := reverse deactivateQueue in
  let i := reuseCount deactivateQueue activateQueue in
  last (daq q) = rdaq !! i
  /\ (forall view, last (daq q) = Some view ->
        canReuse view (activateQueue !! i) = false)
  /\ (forall cb w,
        activatePhase q cb w =
        let w2 := foldl (fun w view => reuse view w) (emit UpdateRoute w)
                        (take i rdaq) in
        match rdaq !! i with
        | Some view => activate view i cb w2
        | None => cb w2
        end).
Proof.
  intros q rdaq i. subst q.
  destruct (reusability_eq deactivateQueue activateQueue) as (Heq & Hlen & _ & Hstop).
  fold rdaq i in Heq, Hlen, Hstop.
  assert (last (daq (reusability deactivateQueue activateQueue).1) = rdaq !! i) as Hlast.
  { rewrite Heq. cbn [fst]. destruct (Nat.ltb_spec 0 i) as [Hpos|Hz]; cbn [daq].
    - rewrite last_reverse, head_lookup, lookup_drop. f_equal. lia.
    - replace i with 0 by lia. unfold rdaq. by rewrite <- head_lookup, head_reverse. }
  split; [done|]. split.
  - intros view Hv. apply Hstop. by rewrite <- Hlast.
  - intros cb w. unfold activatePhase. rewrite Hlast. rewrite Heq. cbn [fst].
    destruct (Nat.ltb_spec 0 i) as [Hpos|Hz]; cbn [reuseQueue].
    + rewrite length_take. by replace (i `min` length rdaq) with i by lia.
    + replace i with 0 by lia. by rewrite take_0.
Qed.

(** X3: an old chain that is reusable as a whole, with no handler beyond it,
    runs no hook at all: [start] updates the location, notifies every view
    in [rdaq] order and calls [cb], all before it returns. *)
Theorem fully_reusable_chain_runs_no_hook
  (deactivateQueue : list View) (activateQueue : list Handler)
  (cb : World -> Result) (w : World) :
  length activateQueue <= length deactivateQueue ->
  (forall k view, reverse deactivateQueue !! k = Some view ->
     canReuse view (activateQueue !! k) = true) ->
  start deactivateQueue activateQueue cb w =
  cb (foldl (fun w view => reuse view w) (emit UpdateRoute w)
            (reverse deactivateQueue)).
Proof.
  intros Hle Hall.
  destruct (reusability_eq deactivateQueue activateQueue) as (Heq & Hlen & _ & Hstop).
  set (i := reuseCount deactivateQueue activateQueue) in *.
  assert (i = length (reverse deactivateQueue)) as Hi.
  { destruct (decide (i = length (reverse deactivateQueue))) as [|Hne]; [done|].
    destruct (lookup_lt_is_Some_2 (reverse deactivateQueue) i) as [v Hv]; [lia|].
    specialize (Hstop v Hv). by rewrite (Hall i v Hv) in Hstop. }
  unfold start, pipeline. rewrite Heq. cbn [fst].
  destruct (Nat.ltb_spec 0 i) as [Hpos|Hz]; cbn [reuseQueue daq aq].
  - rewrite Hi, drop_all, take_ge, drop_ge by (rewrite ?length_reverse; lia).
    rewrite !runQueue_foldr. cbn [foldr reverse].
    unfold activatePhase. cbn [reuseQueue daq last]. by rewrite reverse_nil.
  - rewrite length_reverse in Hi.
    assert (deactivateQueue = []) as -> by (apply nil_length_inv; lia).
    assert (activateQueue = []) as -> by (apply nil_length_inv; cbn in Hle; lia).
    by rewrite !runQueue_foldr.
Qed.

(** X4: a transition to a route that matched nothing: the activate queue is
    empty, so [canReuse] only ever sees an absent handler; when it rejects
    that, nothing is reused, every view stays in the deactivate queue and
    no handler is left to validate. *)
Theorem unmatched_target_reuses_nothing (views : list View) :
  (forall view, canReuse view None = false) ->
  let t := RouteTransition views None in
  t.2 = []
  /\ (reusability t.1 t.2).1
     = {| reuseQueue := None; daq := views; aq := [] |}
  /\ (reusability t.1 t.2).2
     = match last views with Some view => [(view, None)] | None => [] end.
Proof.
  intros Hnone t. subst t. cbn [RouteTransition fst snd map].
  split; [done|].
  destruct (reusability_eq views []) as (Heq & Hlen & Hpre & Hstop).
  set (i := reuseCount views []) in *.
  assert (i = 0) as Hi.
  { destruct i as [|i]; [done|].
    destruct (lookup_lt_is_Some_2 (reverse views) 0) as [v Hv]; [lia|].
    specialize (Hpre 0 v ltac:(lia) Hv). cbn in Hpre. by rewrite Hnone in Hpre. }
  rewrite Heq, Hi. cbn [fst snd Nat.ltb Nat.leb]. split; [done|].
  unfold probes. rewrite <- head_reverse.
  destruct (reverse views) as [|v l]; [done|]. cbn. by rewrite take_0.
Qed.

(** ** How [runQueue] composes *)

(** X5: running a queue made of two parts is running the first part with the
    second as its continuation; an empty queue is its continuation. *)
Theorem runQueue_app {A} (l1 l2 : list A) fn done :
  runQueue (l1 ++ l2) fn done = runQueue l1 fn (runQueue l2 fn done)
  /\ runQueue [] fn done = done
  /\ forall x, runQueue (x :: l2) fn done
               = fn x (fun _ => runQueue l2 fn done).
Proof.
  rewrite !runQueue_foldr. split; [by rewrite foldr_app|]. split; [done|].
  intros x. by rewrite !runQueue_foldr.
Qed.

(** ** Completion *)

Lemma schedule_ends_with_Done q :
  exists init, schedule q = init ++ [Done] /\ Done ∉ init.
Proof.
  exists (map CanDeactivate (daq q) ++ map CanActivate (aq q)
          ++ map Deactivate (daq q)
          ++ UpdateRoute :: map Reuse (default [] (reuseQueue q))
          ++ match last (daq q) with
             | Some view =>
                 [Activate view (match reuseQueue q with
                                 | Some rq => length rq
                                 | None => 0
                                 end)]
             | None => []
             end).
  split.
  - unfold schedule, commitSchedule. rewrite <- !app_assoc. do 3 f_equal.
    cbn [app]. f_equal. rewrite <- app_assoc. f_equal.
    by destruct (last (daq q)).
  - intros Hin.
    repeat (apply elem_of_app in Hin as [Hin|Hin];
            [by apply list_elem_of_fmap in Hin as (? & ? & _)|]).
    apply elem_of_cons in Hin as [?|Hin]; [done|].
    apply elem_of_app in Hin as [Hin|Hin];
      [by apply list_elem_of_fmap in Hin as (? & ? & _)|].
    destruct (last (daq q)).
    + by apply list_elem_of_singleton in Hin.
    + by apply elem_of_nil in Hin.
Qed.

Lemma prefix_reaching_last {A} (l init : list A) x :
  l `prefix_of` init ++ [x] -> x ∈ l -> x ∉ init -> l = init ++ [x].
Proof.
  intros [k Hk] Hin Hnot. destruct k as [|y k] using rev_ind.
  - by rewrite app_nil_r in Hk.
  - rewrite app_assoc in Hk. apply app_inj_tail in Hk as [-> _].
    destruct Hnot. apply elem_of_app. by left.
Qed.

(** X6: whatever the hooks do, [cb] is reached only at the very end of the
    schedule: once it has been called, every remaining view has been
    through [canDeactivate] and [deactivate], every remaining handler
    through [canActivate], the location is updated and [activate] was
    called; and [cb] is never called twice. *)
Theorem completion_means_whole_schedule
  (deactivateQueue : list View) (activateQueue : list Handler)
  (suppressed : bool) (ks : list nat) :
  let q := (reusability deactivateQueue activateQueue).1 in
  let made :=
    progress (run ks (boot (start deactivateQueue activateQueue finished
                              (fresh suppressed)))).1 in
  (Done ∈ made -> made = schedule q)
  /\ (forall i j, made !! i = Some Done -> made !! j = Some Done -> i = j).
Proof.
  intros q made.
  assert (made `prefix_of` schedule q) as Hpre.
  { apply (good_schedule (schedule q) (pipeline q finished)), pipeline_good. }
  destruct (schedule_ends_with_Done q) as (init & Hs & Hnot).
  rewrite Hs in Hpre |- *.
  assert (Done ∈ made -> made = init ++ [Done]) as Hfull.
  { intros Hin. by apply prefix_reaching_last. }
  split; [done|].
  assert (forall i, made !! i = Some Done -> i = length init) as Hat.
  { intros i Hi. rewrite (Hfull (list_elem_of_lookup_2 _ _ _ Hi)) in Hi.
    apply lookup_app_Some in Hi as [Hi|[Hge Hi]].
    - destruct Hnot. by eapply list_elem_of_lookup_2.
    - apply lookup_lt_Some in Hi as Hlt. cbn in Hlt. lia. }
  intros i j Hi Hj. by rewrite (Hat i Hi), (Hat j Hj).
Qed.

(** ** Properties of the world that every step keeps *)

Section KeepsFacts.

Variables (P : World -> Prop) (T : option value -> Prop).
Hypothesis P_emit : forall e w,
  isReplace e = false -> isUncaught e = false -> P w -> P (emit e w).
Hypothesis P_abort : forall w, P w -> P (abort w).
Hypothesis P_redirect : forall p w, P w -> P (redirect p w).
Hypothesis P_uncaught : forall e w, P w -> T (Some e) -> P (emit (Uncaught e) w).
Hypothesis T_none : T None.
Hypothesis T_raise : forall e w, P w -> suppress w = false -> T (Some e).

Lemma Keeps_inv k w : Keeps P T k -> P w -> Sound P T (k w).
Proof. intros HK Hw. inversion HK as [? H]; subst. by apply H. Qed.

Lemma Sound_quiet w : P w -> Sound P T (Res w None []).
Proof. intros Hw. split; [done|]. split; [done|]. apply Forall_nil_2. Qed.

Lemma P_hookAbort cl w : P w -> P (hookAbort cl w).
Proof.
  intros Hw. unfold hookAbort. apply P_abort. destruct cl; [|done].
  by apply P_emit.
Qed.

Section KeptClosures.

Variables (cb : option Continuation) (cl : bool).
Hypothesis Hcb : forall k, cb = Some k -> forall d, Keeps P T (k d).

Lemma next_sound data nc w : P w -> Sound P T (next cb data nc w).2.
Proof.
  intros Hw. unfold next. destruct nc; cbn [snd].
  - apply Sound_quiet. by apply P_emit.
  - destruct cb as [k|] eqn:Hk; [|by apply Sound_quiet].
    destruct (aborted w); [by apply Sound_quiet|].
    cbn [snd]. by apply Keeps_inv; [apply (Hcb k)|].
Qed.

Lemma onError_sound err nc w : P w -> Sound P T (onError cb cl err nc w).2.
Proof.
  intros Hw. rewrite onError_eq.
  assert (Sound P T (if cl then next cb VUndefined nc w
                     else (nc, Res (hookAbort cl w) None [])).2) as Hs.
  { destruct cl; [by apply next_sound|]. by apply Sound_quiet, P_hookAbort. }
  destruct (if cl then _ else _) as [nc' r]. cbn [snd] in *.
  destruct (thrown r); [done|].
  destruct (truthy err && negb (suppress (world r))) eqn:Hc; [|done].
  apply andb_prop in Hc as [_ Hsup]. apply negb_true_iff in Hsup.
  destruct Hs as (Hp & _ & Hq). split; [|split]; cbn [world thrown pending].
  - by apply P_emit.
  - by apply (T_raise _ (world r)).
  - done.
Qed.

Lemma exposed_sound c nc w : P w -> Sound P T (exposed cb cl c nc w).2.
Proof.
  intros Hw. destruct c as [data| |p]; cbn [exposed snd].
  - by apply next_sound.
  - by apply Sound_quiet, P_hookAbort.
  - by apply Sound_quiet, P_redirect.
Qed.

Lemma runBody_sound calls : forall nc w p,
  P w -> Forall (Kept P T) p -> Sound P T (runBody cb cl calls nc w p).2.
Proof.
  induction calls as [|c calls IH]; intros nc w p Hw Hp; cbn [runBody].
  { by split. }
  pose proof (exposed_sound c nc w Hw) as (Hw' & Ht & Hq).
  destruct (exposed cb cl c nc w) as [nc' r]. cbn [snd] in *.
  assert (Forall (Kept P T) (p ++ pending r)) as Hall by by apply Forall_app.
  destruct (thrown r) eqn:Hth; [by split|]. by apply IH.
Qed.

Lemma suspend_kept eb h nc reg : Kept P T (suspend cb eb cl h nc reg).
Proof. intros k' Hk'. cbn in Hk'. by apply Hcb. Qed.

(** Assembling the result of [callHook] from the body and one closure. *)
Lemma assemble_sound eb h (r r' : Result) nc reg :
  Forall (Kept P T) (pending r) -> Sound P T r' ->
  Sound P T (Res (world r') (thrown r')
                 (pending r ++ pending r' ++ [suspend cb eb cl h nc reg])).
Proof.
  intros Hr (Hw & Ht & Hq). split; [done|]. split; [done|]. cbn [pending].
  apply Forall_app. split; [done|]. apply Forall_app. split; [done|].
  constructor; [apply suspend_kept|apply Forall_nil_2].
Qed.

Lemma callHook_sound h eb w : P w -> Sound P T (callHook h cb eb cl w).
Proof.
  intros Hw. unfold callHook.
  pose proof (runBody_sound (body h) false w [] Hw (Forall_nil_2 _)) as (Hw1 & Ht1 & Hq1).
  destruct (runBody cb cl (body h) false w []) as [nc r]. cbn [snd] in *.
  destruct (match thrown r with Some e => Throws e | None => finish h end)
    as [err|res].
  - pose proof (onError_sound err nc (world r) Hw1) as Hs.
    destruct (onError cb cl err nc (world r)) as [nc' r'].
    by apply assemble_sound.
  - destruct eb; [destruct (isBoolean res); [destruct (truthy res)|]|].
    + pose proof (next_sound VUndefined nc (world r) Hw1) as Hs.
      destruct (next cb VUndefined nc (world r)) as [nc' r'].
      by apply assemble_sound.
    + apply (assemble_sound true h r (Res (hookAbort cl (world r)) None []) nc false Hq1).
      by apply Sound_quiet, P_hookAbort.
    + destruct (isPromise res);
        apply (assemble_sound true h r (Res (world r) None []) nc _ Hq1);
        by apply Sound_quiet.
    + destruct (isPromise res);
        apply (assemble_sound false h r (Res (world r) None []) nc _ Hq1);
        by apply Sound_quiet.
Qed.

End KeptClosures.

Lemma resume_sound inv inv' r w :
  Kept P T inv -> P w -> resume inv w = Some (inv', r) ->
  Kept P T inv' /\ Sound P T r.
Proof.
  intros Hk Hw. unfold resume.
  destruct (i_script inv) as [|ev script]; [done|].
  assert (forall s : bool * Result, Sound P T s.2 ->
            Some ({| i_nextCalled := s.1; i_cb := i_cb inv;
                     i_expectBoolean := i_expectBoolean inv;
                     i_cleanup := i_cleanup inv;
                     i_reaction := match ev with
                                   | Later _ => i_reaction inv
                                   | _ => false
                                   end;
                     i_script := script |}, s.2) = Some (inv', r) ->
            Kept P T inv' /\ Sound P T r) as Hgen.
  { by intros [nc' r'] Hs [= <- <-]. }
  assert (Sound P T (Res w None [])) as Hq by by apply Sound_quiet.
  destruct ev as [c|v|e].
  - pose proof (exposed_sound (i_cb inv) (i_cleanup inv) Hk c (i_nextCalled inv) w Hw).
    destruct (exposed _ _ c _ w) as [nc' r']. by apply (Hgen (nc', r')).
  - destruct (i_reaction inv); [|by apply (Hgen (i_nextCalled inv, Res w None []))].
    destruct (i_expectBoolean inv); [destruct (truthy v)|].
    + pose proof (next_sound (i_cb inv) Hk VUndefined (i_nextCalled inv) w Hw).
      destruct (next _ VUndefined _ w) as [nc' r']. by apply (Hgen (nc', r')).
    + apply (Hgen (i_nextCalled inv, Res (hookAbort (i_cleanup inv) w) None [])).
      by apply Sound_quiet, P_hookAbort.
    + pose proof (next_sound (i_cb inv) Hk v (i_nextCalled inv) w Hw).
      destruct (next _ v _ w) as [nc' r']. by apply (Hgen (nc', r')).
  - destruct (i_reaction inv); [|by apply (Hgen (i_nextCalled inv, Res w None []))].
    pose proof (onError_sound (i_cb inv) (i_cleanup inv) Hk e (i_nextCalled inv) w Hw).
    destruct (onError _ _ e _ w) as [nc' r']. by apply (Hgen (nc', r')).
Qed.

Lemma P_surface r : Sound P T r -> P (surface r).
Proof.
  intros (Hw & Ht & _). unfold surface. destruct (thrown r); [|done].
  by apply P_uncaught.
Qed.

Lemma fire_kept k c : Kept_config P T c -> Kept_config P T (fire k c).
Proof.
  intros [Hw Hpool]. unfold fire.
  destruct (c.2 !! k) as [inv|] eqn:Hlook; [|done].
  destruct (resume inv c.1) as [[inv' r]|] eqn:Hres; [|done].
  destruct (resume_sound _ _ _ _ (Forall_lookup_1 _ _ _ _ Hpool Hlook) Hw Hres)
    as [Hk' Hs].
  split; cbn [fst snd]; [by apply P_surface|].
  apply Forall_app. split; [by apply Forall_insert|]. by destruct Hs as (_ & _ & ?).
Qed.

Lemma run_kept ks : forall c, Kept_config P T c -> Kept_config P T (run ks c).
Proof.
  induction ks as [|k ks IH]; intros c Hc; [done|]. apply IH. by apply fire_kept.
Qed.

Lemma Keeps_finished : Keeps P T finished.
Proof.
  constructor. intros w Hw. unfold finished; cbn [world thrown pending].
  split; [by apply P_emit|]. split; [done|apply Forall_nil_2].
Qed.

Lemma Keeps_callHook e h eb cl k :
  isPipelineCall e = true -> Keeps P T k ->
  Keeps P T (fun w => callHook h (Some (fun _ => k)) eb cl (emit e w)).
Proof.
  intros He Hk. constructor. intros w Hw.
  apply (callHook_sound (Some (fun _ => k)) cl); [by intros k' [= <-] d|].
  apply P_emit; [by destruct e|by destruct e|done].
Qed.

Lemma Keeps_runQueue {A} (fn : A -> Continuation -> World -> Result) queue done :
  (forall x k, Keeps P T k -> Keeps P T (fn x (fun _ => k))) ->
  Keeps P T done -> Keeps P T (runQueue queue fn done).
Proof.
  intros Hfn Hdone. rewrite runQueue_foldr.
  induction queue as [|x queue IH]; cbn [foldr]; [done|]. by apply Hfn.
Qed.

Lemma P_reuse_foldl rq : forall w,
  P w -> P (foldl (fun w view => reuse view w) w rq).
Proof.
  induction rq as [|v rq IH]; intros w Hw; cbn [foldl]; [done|].
  apply IH. by apply P_emit.
Qed.

Lemma Keeps_activatePhase q : Keeps P T (activatePhase q finished).
Proof.
  constructor. intros w Hw. unfold activatePhase.
  assert (P (match reuseQueue q with
             | Some rq => foldl (fun w view => reuse view w) (emit UpdateRoute w) rq
             | None => emit UpdateRoute w
             end)) as Hw2.
  { destruct (reuseQueue q); [apply P_reuse_foldl|]; by apply P_emit. }
  destruct (last (daq q)) as [view|].
  - apply (Keeps_inv _ _ (Keeps_callHook (Activate view _) (activateHook view)
                            false true finished eq_refl Keeps_finished) Hw2).
  - by apply (Keeps_inv _ _ Keeps_finished).
Qed.

Lemma Keeps_pipeline q : Keeps P T (pipeline q finished).
Proof.
  unfold pipeline.
  apply Keeps_runQueue.
  { intros x k Hk. by apply (Keeps_callHook (CanDeactivate x)). }
  apply Keeps_runQueue.
  { intros x k Hk. by apply (Keeps_callHook (CanActivate x)). }
  apply Keeps_runQueue.
  { intros x k Hk. by apply (Keeps_callHook (Deactivate x)). }
  apply Keeps_activatePhase.
Qed.

(** A property in this sense holds of the world at every moment of any
    transition started in a world where it holds. *)
Lemma start_keeps deactivateQueue activateQueue w ks :
  P w ->
  Sound P T (start deactivateQueue activateQueue finished w)
  /\ P (run ks (boot (start deactivateQueue activateQueue finished w))).1.
Proof.
  intros Hw.
  pose proof (Keeps_inv _ w
                (Keeps_pipeline (reusability deactivateQueue activateQueue).1) Hw)
    as Hs.
  split; [done|]. apply run_kept. split; [by apply P_surface|].
  by destruct Hs as (_ & _ & ?).
Qed.

End KeepsFacts.

Lemma trace_abort w :
  trace (abort w) =
  trace w ++ (if aborted w then []
              else [Replace (if String.eqb (path from) "" then "/" else path from)]).
Proof. unfold abort. destruct (aborted w); cbn; by rewrite ?app_nil_r. Qed.

Lemma trace_redirect p w :
  trace (redirect p w) =
  trace w ++ (if aborted w then []
              else [Replace (mapParams p (params to) (query to))]).
Proof. unfold redirect. destruct (aborted w); cbn; by rewrite ?app_nil_r. Qed.

Lemma suppress_abort w : suppress (abort w) = suppress w.
Proof. unfold abort. by destruct (aborted w). Qed.


Lemma navigations_abort w :
  navigations (abort w) = navigations w + (if aborted w then 0 else 1).
Proof.
  unfold navigations. rewrite trace_abort, List.filter_app, length_app.
  by destruct (aborted w).
Qed.

Lemma navigations_redirect p w :
  navigations (redirect p w) = navigations w + (if aborted w then 0 else 1).
Proof.
  unfold navigations. rewrite trace_redirect, List.filter_app, length_app.
  by destruct (aborted w).
Qed.

(** X7: whatever the hooks do and however often they call [abort] and
    [redirect], at every moment of a transition [router.replace] has been
    called exactly once if the transition is aborted and not at all
    otherwise. *)
Theorem one_navigation_per_aborted_transition
  (deactivateQueue : list View) (activateQueue : list Handler)
  (suppressed : bool) (ks : list nat) :
  let w := (run ks (boot (start deactivateQueue activateQueue finished
                            (fresh suppressed)))).1 in
  navigations w = if aborted w then 1 else 0.
Proof.
  set (P := fun w : World => navigations w = if aborted w then 1 else 0).
  assert (forall e w, isReplace e = false -> isUncaught e = false ->
            P w -> P (emit e w)) as Hemit.
  { intros e w Hr _ Hw. unfold P in *. rewrite navigations_emit, Hr. cbn. lia. }
  assert (forall w, P w -> P (abort w)) as Habort.
  { intros w Hw. unfold P in *. rewrite navigations_abort, abort_aborted, Hw.
    by destruct (aborted w). }
  assert (forall p w, P w -> P (redirect p w)) as Hredirect.
  { intros p w Hw. unfold P in *.
    rewrite navigations_redirect, redirect_aborted, Hw. by destruct (aborted w). }
  assert (forall e w, P w -> True -> P (emit (Uncaught e) w)) as Hunc.
  { intros e w Hw _. unfold P in *. rewrite navigations_emit. cbn. lia. }
  apply (start_keeps P (fun _ => True) Hemit Habort Hredirect Hunc I
           (fun _ _ _ _ => I) deactivateQueue activateQueue (fresh suppressed) ks
           eq_refl).
Qed.


(** ** The other branches of [callHook] *)

(** X9: before the commit point (no cleanup) a hook that throws aborts the
    transition: if it was not aborted yet there is one re-navigation, to
    [from.path] or to "/" when that is empty, never to an empty path; the
    continuation is not called, so no pipeline call follows; and the error
    is re-raised as an [Error] unless it is falsy or suppressed. *)
Theorem error_before_commit_aborts
  (cb : option Continuation) (eb : bool) (h : hook) (err : value) (w : World) :
  finish h = Throws err ->
  let pre := runBody cb false (body h) false w [] in
  thrown pre.2 = None ->
  let target := if String.eqb (path from) "" then "/" else path from in
  let raised := truthy err && negb (suppress (world pre.2)) in
  trace (world (callHook h cb eb false w)) =
    trace (world pre.2)
    ++ (if aborted (world pre.2) then [] else [Replace target])
    ++ (if raised then [Warn "Uncaught error during transition: "] else [])
  /\ target <> ""
  /\ aborted (world (callHook h cb eb false w)) = true
  /\ progress (world (callHook h cb eb false w)) = progress (world pre.2)
  /\ thrown (callHook h cb eb false w)
     = (if raised then Some (reraised err) else None)
  /\ pending (callHook h cb eb false w)
     = pending pre.2 ++ [suspend cb eb false h pre.1 false].
Proof.
  intros Hf pre Hpre target raised.
  rewrite (callHook_throws _ _ _ _ _ _ Hf Hpre). fold pre.
  rewrite onError_eq. cbn [fst snd world thrown pending].
  unfold hookAbort. rewrite suppress_abort. fold raised.
  split; [|split; [|split; [|split; [|split]]]].
  - destruct raised; unfold warn, emit; cbn [world trace]; rewrite trace_abort.
    + by rewrite <- app_assoc.
    + by rewrite app_nil_r.
  - subst target. destruct (String.eqb_spec (path from) ""); [done|done].
  - destruct raised; cbn [world]; apply abort_aborted.
  - destruct raised; cbn [world]; unfold warn;
      by rewrite ?progress_emit, ?progress_abort, ?app_nil_r.
  - by destruct raised.
  - by destruct raised.
Qed.

(** X10: a return value that is not a thenable and, where a boolean is
    expected, not a boolean either, is ignored: the hook is left to call
    [next] itself.  In particular [false] returned by a [deactivate] or
    [activate] hook neither aborts nor advances. *)
Theorem other_return_values_are_ignored
  (cb : option Continuation) (eb cl : bool) (h : hook) (res : value) (w : World) :
  finish h = Returns res ->
  isPromise res = false ->
  eb && isBoolean res = false ->
  let pre := runBody cb cl (body h) false w [] in
  thrown pre.2 = None ->
  callHook h cb eb cl w =
  Res (world pre.2) None (pending pre.2 ++ [suspend cb eb cl h pre.1 false]).
Proof.
  intros Hf Hp Hb pre Hpre. unfold callHook. fold pre.
  destruct pre as [nc r]. cbn [fst snd] in *. rewrite Hpre, Hf, Hp.
  destruct eb; [|done]. cbn in Hb. by rewrite Hb.
Qed.

(** ** A transition whose hooks all let it through *)

Lemma extend_emit e w : emit e w = extend [e] w.
Proof. done. Qed.

Lemma extend_nil w : extend [] w = w.
Proof. destruct w. unfold extend; cbn. by rewrite app_nil_r. Qed.

Lemma extend_extend es1 es2 w : extend es2 (extend es1 w) = extend (es1 ++ es2) w.
Proof. unfold extend; cbn. by rewrite <- app_assoc. Qed.

(** A validation hook that returns [true]. *)
Lemma callHook_approves h k cl w :
  body h = [] -> finish h = Returns (VBool true) -> aborted w = false ->
  world (callHook h (Some k) true cl w) = world (k VUndefined w)
  /\ thrown (callHook h (Some k) true cl w) = thrown (k VUndefined w).
Proof.
  intros Hb Hf Hw. unfold callHook. rewrite Hb. cbn [runBody thrown world].
  rewrite Hf. cbn. unfold next. rewrite Hw. done.
Qed.

(** An action hook that calls [next] and returns nothing of interest. *)
Lemma callHook_calls_next h d res k cl w :
  body h = [CallNext d] -> finish h = Returns res -> isPromise res = false ->
  aborted w = false -> thrown (k d w) = None ->
  world (callHook h (Some k) false cl w) = world (k d w)
  /\ thrown (callHook h (Some k) false cl w) = None.
Proof.
  intros Hb Hf Hp Hw Hk. unfold callHook. rewrite Hb.
  cbn [runBody exposed].
  replace (next (Some k) d false w) with (true, k d w)
    by (unfold next; by rewrite Hw).
  cbn iota beta. rewrite Hk. cbn [runBody thrown world]. by rewrite Hf, Hp.
Qed.

Lemma runQueue_through {A} (ev : A -> event) (hk : A -> hook) (eb : bool)
  (queue : list A) done :
  (forall x,
     (eb = true /\ body (hk x) = [] /\ finish (hk x) = Returns (VBool true))
     \/ (eb = false
         /\ exists d res, body (hk x) = [CallNext d]
              /\ finish (hk x) = Returns res /\ isPromise res = false)) ->
  forall w, aborted w = false ->
    thrown (done (extend (map ev queue) w)) = None ->
    world (runQueue queue
             (fun x next w => callHook (hk x) (Some next) eb false (emit (ev x) w))
             done w)
    = world (done (extend (map ev queue) w))
    /\ thrown (runQueue queue
                 (fun x next w =>
                    callHook (hk x) (Some next) eb false (emit (ev x) w))
                 done w) = None.
Proof.
  intros Hhk. rewrite runQueue_foldr.
  induction queue as [|x queue IH]; intros w Hw Hdone; cbn [foldr map] in *.
  { by rewrite extend_nil in *. }
  assert (extend (ev x :: map ev queue) w = extend (map ev queue) (emit (ev x) w))
    as Hext by by rewrite extend_emit, extend_extend.
  rewrite Hext in Hdone |- *.
  destruct (IH (emit (ev x) w) Hw Hdone) as [IHw IHt].
  destruct (Hhk x) as [(-> & Hb & Hf)|(-> & d & res & Hb & Hf & Hp)].
  - destruct (callHook_approves (hk x)
                (fun _ => foldr (fun x k => fun w =>
                   callHook (hk x) (Some (fun _ => k)) true false (emit (ev x) w))
                   done queue) false (emit (ev x) w) Hb Hf Hw) as [E1 E2].
    split; [exact (eq_trans E1 IHw)|exact (eq_trans E2 IHt)].
  - destruct (callHook_calls_next (hk x) d res
                (fun _ => foldr (fun x k => fun w =>
                   callHook (hk x) (Some (fun _ => k)) false false (emit (ev x) w))
                   done queue) false (emit (ev x) w) Hb Hf Hp Hw IHt) as [E1 E2].
    split; [exact (eq_trans E1 IHw)|exact E2].
Qed.

Lemma reuse_foldl_extend rq : forall w,
  foldl (fun w view => reuse view w) w rq = extend (map Reuse rq) w.
Proof.
  induction rq as [|v rq IH]; intros w; cbn [foldl map].
  - by rewrite extend_nil.
  - rewrite IH. unfold reuse. by rewrite extend_emit, extend_extend.
Qed.

Lemma activatePhase_through q w :
  (forall view, exists d res,
     body (activateHook view) = [CallNext d]
     /\ finish (activateHook view) = Returns res /\ isPromise res = false) ->
  aborted w = false ->
  world (activatePhase q finished w) = extend (commitSchedule q) w
  /\ thrown (activatePhase q finished w) = None.
Proof.
  intros Hact Hw. unfold activatePhase, commitSchedule.
  set (w2 := match reuseQueue q with
             | Some rq => foldl (fun w view => reuse view w) (emit UpdateRoute w) rq
             | None => emit UpdateRoute w
             end).
  assert (w2 = extend (UpdateRoute :: map Reuse (default [] (reuseQueue q))) w)
    as Hw2.
  { unfold w2. destruct (reuseQueue q) as [rq|]; cbn [default from_option id map].
    - by rewrite reuse_foldl_extend, extend_emit, extend_extend.
    - by rewrite extend_emit. }
  change (UpdateRoute :: ?l ++ ?t) with ((UpdateRoute :: l) ++ t).
  rewrite <- extend_extend, <- Hw2.
  assert (aborted w2 = false) as Ha by by rewrite Hw2.
  destruct (last (daq q)) as [view|]; [|done].
  destruct (Hact view) as (d & res & Hb & Hf & Hp).
  destruct (callHook_calls_next (activateHook view) d res (fun _ => finished) true
              (emit (Activate view
                       match reuseQueue q with Some rq => length rq | None => 0 end)
                    w2) Hb Hf Hp Ha eq_refl) as [E1 E2].
  split; [|exact E2]. etrans; [exact E1|]. cbn [finished world].
  by rewrite !extend_emit, !extend_extend.
Qed.

(** X11: when every [canDeactivate] and [canActivate] hook returns [true] and
    every [deactivate] and [activate] hook calls [next], [start] runs the
    whole schedule and calls [cb] before it returns: it makes exactly the
    calls of the schedule, in order, with no warning and no re-navigation,
    leaves the transition not aborted and throws nothing. *)
Theorem cooperative_hooks_run_to_completion
  (deactivateQueue : list View) (activateQueue : list Handler) (w : World) :
  (forall view, body (canDeactivateHook view) = []
                /\ finish (canDeactivateHook view) = Returns (VBool true)) ->
  (forall handler, body (canActivateHook handler) = []
                   /\ finish (canActivateHook handler) = Returns (VBool true)) ->
  (forall view, exists d res,
     body (deactivateHook view) = [CallNext d]
     /\ finish (deactivateHook view) = Returns res /\ isPromise res = false) ->
  (forall view, exists d res,
     body (activateHook view) = [CallNext d]
     /\ finish (activateHook view) = Returns res /\ isPromise res = false) ->
  aborted w = false ->
  world (start deactivateQueue activateQueue finished w)
  = extend (schedule (reusability deactivateQueue activateQueue).1) w
  /\ thrown (start deactivateQueue activateQueue finished w) = None.
Proof.
  intros Hcd Hca Hde Hact Hw. unfold start, pipeline, schedule.
  set (q := (reusability deactivateQueue activateQueue).1).
  set (w1 := extend (map CanDeactivate (daq q)) w).
  set (w2 := extend (map CanActivate (aq q)) w1).
  set (w3 := extend (map Deactivate (daq q)) w2).
  destruct (activatePhase_through q w3 Hact Hw) as [A3w A3t].
  destruct (runQueue_through Deactivate deactivateHook false (daq q)
              (activatePhase q finished)
              (fun x => or_intror (conj eq_refl (Hde x))) w2 Hw A3t) as [A2w A2t].
  destruct (runQueue_through CanActivate canActivateHook true (aq q)
              (runQueue (daq q) deactivate (activatePhase q finished))
              (fun x => or_introl (conj eq_refl (Hca x))) w1 Hw A2t) as [A1w A1t].
  destruct (runQueue_through CanDeactivate canDeactivateHook true (daq q)
              (runQueue (aq q) canActivate
                 (runQueue (daq q) deactivate (activatePhase q finished)))
              (fun x => or_introl (conj eq_refl (Hcd x))) w Hw A1t) as [A0w A0t].
  split; [|exact A0t].
  etrans; [exact A0w|]. etrans; [exact A1w|]. etrans; [exact A2w|].
  etrans; [exact A3w|]. unfold w3, w2, w1.
  by rewrite !extend_extend, <- ?app_assoc.
Qed.

(** ** The thenable convention, and what runs the cleanup *)


(** X13: the cleanup runs each time the hook calls [abort()] on the exposed
    object, also in a transition that is already aborted, while the
    re-navigation happens at most once; [redirect] never runs it. *)
Theorem cleanup_runs_on_every_abort_call
  (cb : option Continuation) (nc : bool) (p : string) (w : World) :
  let target := if String.eqb (path from) "" then "/" else path from in
  trace (world (exposed cb true CallAbort nc w).2)
  = trace w ++ Cleanup :: (if aborted w then [] else [Replace target])
  /\ trace (world (exposed cb true (CallRedirect p) nc w).2)
     = trace w ++ (if aborted w then []
                   else [Replace (mapParams p (params to) (query to))])
  /\ trace (world (exposed cb false CallAbort nc w).2)
     = trace w ++ (if aborted w then [] else [Replace target]).
Proof.
  intros target. cbn [exposed snd world]. unfold hookAbort.
  rewrite !trace_abort, trace_redirect. cbn. by rewrite <- app_assoc.
Qed.

End Transition.

(** * Concrete transitions *)

(** The functions at views and handlers named by strings. *)
Local Abbreviation ex_callHook :=
  (@callHook string string ex_to ex_from ex_mapParams).

(** [start] with hooks that let everything through, except [canActivate]. *)
Local Abbreviation ex_start canActivateHook :=
  (@start string string ex_to ex_from ex_mapParams sameName
          (fun _ => returnsTrue) (fun _ => callsNext) (fun _ => callsNext)
          canActivateHook).

Local Abbreviation ex_done :=
  (Some (fun _ : value => @finished string string)).

(** C1, counterexample: with the old chain stored root to leaf, [A; B; C],
    and handlers [A; B; D], the first pair given to [canReuse] is (C, A),
    not (C, D): the reversed queue is read against the handlers index by
    index.  Stored deepest first, as the source says, the first pair is
    (A, A).  And the loop does not stop when the handlers run out: it goes
    on to the end of the deactivate queue. *)
Lemma first_pair_is_not_the_deepest_pair :
  (reusability sameName ["A"; "B"; "C"] ["A"; "B"; "D"]).2 = [("C", Some "A")]
  /\ (reusability sameName ["A"; "B"; "C"] ["A"; "B"; "D"]).2 !! 0
     <> Some ("C", Some "D")
  /\ (reusability sameName ["C"; "B"; "A"] ["A"; "B"; "D"]).2 !! 0
     = Some ("A", Some "A")
  /\ (reusability anyPair ["A"; "B"] ["A"]).2 = [("B", Some "A"); ("A", None)].
Proof. vm_compute. split_and!; congruence. Qed.

(** C4, counterexample: a [canReuse] that accepts an absent handler makes
    the reuse queue longer than the activate queue. *)
Lemma reuseQueue_longer_than_activateQueue :
  reuseQueue (reusability anyPair ["A"] []).1 = Some ["A"]
  /\ ~ (length ["A"] <= length ["A"] `min` length (@nil string)).
Proof. split; [reflexivity|]. cbn. lia. Qed.

Lemma reuseQueue_length_bound_witness :
  reuseQueue (reusability sameName ["C"; "B"; "A"] ["A"; "B"; "D"]).1
    = Some ["A"; "B"]
  /\ length ["A"; "B"]
     <= length ["C"; "B"; "A"] `min` length ["A"; "B"; "D"].
Proof.
  split; [reflexivity|].
  apply (reuseQueue_length_bound sameName ["C"; "B"; "A"] ["A"; "B"; "D"]
           ["A"; "B"] eq_refl).
  intros v. reflexivity.
Defined.

Lemma reuseLoop_reads_past_activateQueue_witness :
  length ["A"] < length ["B"; "A"]
  /\ exists v,
       reverse ["B"; "A"] !! length ["A"] = Some v
       /\ ["A"] !! length ["A"] = None
       /\ (reusability sameName ["B"; "A"] ["A"]).2 !! length ["A"]
          = Some (v, None).
Proof.
  split; [cbn; lia|].
  apply (reuseLoop_reads_past_activateQueue sameName ["B"; "A"] ["A"]).
  - cbn; lia.
  - intros [|k] v h Hv Hh; cbn in Hv, Hh; [|discriminate].
    injection Hv as <-. injection Hh as <-. reflexivity.
Defined.

(** C2, counterexample: the activation hook throws, a cleanup was supplied;
    the completion callback runs and the error is reported, but the cleanup
    does not run. *)
Lemma cleanup_does_not_run_on_error :
  trace (world (ex_callHook throwsBoom ex_done false true (fresh false)))
  = [Done; Warn "Uncaught error during transition: "]
  /\ Cleanup ∉ trace (world (ex_callHook throwsBoom ex_done false true (fresh false))).
Proof.
  split; [reflexivity|]. vm_compute.
  intros H. repeat (apply elem_of_cons in H as [H|H]; [discriminate|]).
  by apply elem_of_nil in H.
Qed.

Lemma error_after_commit_advances_without_cleanup_witness :
  finish throwsBoom = Throws (VStr "boom")
  /\ trace (world (ex_callHook throwsBoom ex_done false true (fresh false)))
     = trace (world (@finished string string (fresh false)))
       ++ [Warn "Uncaught error during transition: "].
Proof.
  split; [reflexivity|].
  exact (proj1 (error_after_commit_advances_without_cleanup
                  ex_to ex_from ex_mapParams ex_done false throwsBoom
                  (VStr "boom") (fresh false) eq_refl eq_refl)).
Defined.

(** C3, counterexample: the error the hook threw comes back out of
    [callHook] itself, to its caller, in the same turn. *)
Lemma error_is_reraised_synchronously :
  thrown (ex_callHook throwsBoom ex_done false true (fresh false))
  = Some (VError "boom").
Proof. reflexivity. Qed.

Lemma error_after_commit_reraised_in_place_witness :
  finish throwsBoom = Throws (VStr "boom")
  /\ truthy (VStr "boom") = true
  /\ thrown (ex_callHook throwsBoom ex_done false true (fresh false))
     = Some (reraised (VStr "boom")).
Proof.
  split; [reflexivity|]. split; [reflexivity|].
  exact (proj1 (error_after_commit_reraised_in_place
                  ex_to ex_from ex_mapParams ex_done false throwsBoom
                  (VStr "boom") (fresh false) eq_refl eq_refl eq_refl eq_refl)).
Defined.

Lemma falsy_error_is_not_reraised_witness :
  truthy (VStr "") = false
  /\ thrown (ex_callHook throwsEmpty ex_done false false (fresh false)) = None
  /\ aborted (world (ex_callHook throwsEmpty ex_done false false (fresh false)))
     = true.
Proof.
  split; [reflexivity|].
  destruct (proj1 (proj2 (falsy_error_is_not_reraised
                     ex_to ex_from ex_mapParams ex_done false false throwsEmpty
                     (VStr "") (fresh false) eq_refl)) eq_refl eq_refl)
    as [Hw Ht].
  split; [exact Ht|]. rewrite Hw. reflexivity.
Defined.

Lemma aborted_is_sticky_witness :
  aborted (abort ex_from (@fresh string string false)) = true
  /\ abort ex_from (abort ex_from (@fresh string string false))
     = abort ex_from (fresh false)
  /\ redirect ex_to ex_mapParams "/login" (abort ex_from (@fresh string string false))
     = abort ex_from (fresh false).
Proof.
  split; [reflexivity|].
  destruct (aborted_is_sticky ex_to ex_from ex_mapParams
              (abort ex_from (@fresh string string false)) eq_refl)
    as (Ha & Hr & _).
  split; [exact Ha|exact (Hr "/login")].
Defined.

(** C8, counterexample: the [canActivate] hook of D calls [next] and then
    returns [false]; the hooks of the later handler E, [deactivate] and
    [activate] have all been invoked by the time the transition aborts. *)
Lemma later_hooks_run_before_false_is_returned :
  finish (advancesThenRefuses "D") = Returns (VBool false)
  /\ trace (boot (ex_start advancesThenRefuses ["X"] ["D"; "E"] finished
                    (fresh false))).1
     = [CanDeactivate "X"; CanActivate "D"; CanActivate "E"; Deactivate "X";
        UpdateRoute; Activate "X" 0; Done; Replace "/home"].
Proof. split; reflexivity. Qed.

Lemma canActivate_false_aborts_at_once_witness :
  aq (reusability sameName ["X"] ["D"; "E"]).1 !! 0 = Some "D"
  /\ progress (run ex_to ex_from ex_mapParams [0; 1]
                 (boot (ex_start (fun _ => returnsFalse) ["X"] ["D"; "E"]
                          finished (fresh false)))).1
     `prefix_of` [CanDeactivate "X"; CanActivate "D"].
Proof.
  split; [reflexivity|].
  refine (proj1 (canActivate_false_aborts_at_once
                   ex_to ex_from ex_mapParams sameName
                   (fun _ => returnsTrue) (fun _ => callsNext) (fun _ => callsNext)
                   (fun _ => returnsFalse) ["X"] ["D"; "E"] false [0; 1] 0 "D"
                   eq_refl eq_refl _)).
  intros d H. by apply elem_of_nil in H.
Defined.

(** A transition whose hooks all let it through makes every call of its
    schedule; a hook that calls [next] twice earns one warning and the
    completion callback still runs once. *)
Example pipeline_runs_to_completion :
  progress (boot (ex_start (fun _ => returnsTrue) ["C"; "B"; "A"] ["A"; "B"; "D"]
                    finished (fresh false))).1
  = schedule (reusability sameName ["C"; "B"; "A"] ["A"; "B"; "D"]).1.
Proof. reflexivity. Qed.

Example next_called_twice_warns_once :
  trace (world (ex_callHook
                  {| body := [CallNext VUndefined; CallNext VNull];
                     finish := Returns VUndefined; after := [] |}
                  ex_done false false (fresh false)))
  = [Done; Warn "transition.next() should be called only once."].
Proof. reflexivity. Qed.

(** ** Instances of the further properties *)

Lemma fully_reusable_chain_runs_no_hook_witness :
  length ["A"; "B"] <= length ["B"; "A"]
  /\ trace (world (ex_start (fun _ => returnsFalse) ["B"; "A"] ["A"; "B"]
                     finished (fresh false)))
     = [UpdateRoute; Reuse "A"; Reuse "B"; Done].
Proof.
  split; [cbn; lia|].
  rewrite (fully_reusable_chain_runs_no_hook ex_to ex_from ex_mapParams sameName
             (fun _ => returnsTrue) (fun _ => callsNext) (fun _ => callsNext)
             (fun _ => returnsFalse) ["B"; "A"] ["A"; "B"] finished (fresh false)).
  - reflexivity.
  - cbn; lia.
  - intros [|[|k]] view Hv; cbn in Hv; try discriminate;
      injection Hv as <-; reflexivity.
Defined.

Lemma unmatched_target_reuses_nothing_witness :
  (forall view, sameName view None = false)
  /\ (reusability sameName ["B"; "A"] (RouteTransition ["B"; "A"] None).2).2
     = [("A", None)].
Proof.
  split; [reflexivity|].
  exact (proj2 (proj2 (unmatched_target_reuses_nothing sameName ["B"; "A"]
                         (fun _ => eq_refl)))).
Defined.

Lemma error_before_commit_aborts_witness :
  finish throwsBoom = Throws (VStr "boom")
  /\ trace (world (ex_callHook throwsBoom ex_done false false (fresh false)))
     = [Replace "/home"; Warn "Uncaught error during transition: "].
Proof.
  split; [reflexivity|].
  exact (proj1 (error_before_commit_aborts ex_to ex_from ex_mapParams ex_done
                  false throwsBoom (VStr "boom") (fresh false) eq_refl eq_refl)).
Defined.

Lemma other_return_values_are_ignored_witness :
  finish returnsFalse = Returns (VBool false)
  /\ world (ex_callHook returnsFalse ex_done false false (fresh false))
     = fresh false.
Proof.
  split; [reflexivity|].
  rewrite (other_return_values_are_ignored ex_to ex_from ex_mapParams ex_done
             false false returnsFalse (VBool false) (fresh false)
             eq_refl eq_refl eq_refl eq_refl).
  reflexivity.
Defined.

Lemma cooperative_hooks_run_to_completion_witness :
  aborted (@fresh string string false) = false
  /\ trace (world (ex_start (fun _ => returnsTrue) ["C"; "B"; "A"] ["A"; "B"; "D"]
                     finished (fresh false)))
     = [CanDeactivate "C"; CanActivate "D"; Deactivate "C"; UpdateRoute;
        Reuse "A"; Reuse "B"; Activate "C" 2; Done].
Proof.
  split; [reflexivity|].
  rewrite (proj1 (cooperative_hooks_run_to_completion
                    ex_to ex_from ex_mapParams sameName
                    (fun _ => returnsTrue) (fun _ => callsNext) (fun _ => callsNext)
                    (fun _ => returnsTrue) ["C"; "B"; "A"] ["A"; "B"; "D"]
                    (fresh false)
                    (fun _ => conj eq_refl eq_refl)
                    (fun _ => conj eq_refl eq_refl)
                    (fun _ => ex_intro _ VUndefined
                                (ex_intro _ VUndefined
                                   (conj eq_refl (conj eq_refl eq_refl))))
                    (fun _ => ex_intro _ VUndefined
                                (ex_intro _ VUndefined
                                   (conj eq_refl (conj eq_refl eq_refl))))
                    eq_refl)).
  reflexivity.
Defined.

